(** * The chat message store of [src/store/messages.ts]

    A shallow embedding of the zustand store (message sequence, reply-tree
    builder, streaming response handler and request orchestrators) together
    with the properties its specification states about it. *)

From Stdlib Require Import ZArith NArith Ascii String DecimalString.
From Stdlib Require Import DecimalPos DecimalZ.
From Equations Require Import Equations.
From stdpp Require Import gmap list option.

Local Open Scope N_scope.

(** ** JavaScript strings

    A JavaScript string is a sequence of UTF-16 code units.  A code unit is
    kept as its numeric value (below 2^16; nothing here depends on the
    bound), so that the line terminators and white space characters outside
    ASCII that [.] and [trim] treat specially can be told apart. *)

Abbreviation jschar := N.
Abbreviation jsstring := (list N).

(** ASCII literals, for readable examples. *)
Definition js (s : string) : jsstring :=
  map N_of_ascii (list_ascii_of_string s).

(** ECMAScript LineTerminator: LF, CR, LS, PS. *)
Definition is_line_terminator (c : jschar) : bool :=
  (c =? 10) || (c =? 13) || (c =? 8232) || (c =? 8233).

(** ECMAScript WhiteSpace: TAB, VT, FF, SP, NBSP, ZWNBSP and the Unicode
    space separators (category Zs). *)
Definition is_white_space (c : jschar) : bool :=
  (c =? 9) || (c =? 11) || (c =? 12) || (c =? 32) || (c =? 160) ||
  (c =? 65279) || (c =? 5760) || ((8192 <=? c) && (c <=? 8202)) ||
  (c =? 8239) || (c =? 8287) || (c =? 12288).

(** What [String.prototype.trim] strips from both ends. *)
Definition is_trimmed_char (c : jschar) : bool :=
  is_white_space c || is_line_terminator c.

Fixpoint trimStart (s : jsstring) : jsstring :=
  match s with
  | [] => []
  | c :: s' => if is_trimmed_char c then trimStart s' else s
  end.

Definition trimEnd (s : jsstring) : jsstring := rev (trimStart (rev s)).

Definition trim (s : jsstring) : jsstring := trimEnd (trimStart s).

(** Truthiness of a string value: only the empty string is falsy. *)
Definition truthy (s : jsstring) : bool :=
  match s with [] => false | _ :: _ => true end.

(** [x || d] on an optional string property. *)
Definition string_or (x : option jsstring) (d : jsstring) : jsstring :=
  match x with
  | Some s => if truthy s then s else d
  | None => d
  end.

(** [n + ''] for an integral number below 10^21 in magnitude: its decimal
    digits, with a leading minus sign when negative. *)
Definition Number_toString (n : Z) : jsstring :=
  js (NilZero.string_of_int (Z.to_int n)).

(** ** The emphasis-stripping regular expressions

    [/\*\*(.*?)\*\*/g] and [/\*(.*?)\*/g] have the shape [d(.*?)d] for a
    literal delimiter [d].  [.] is any code unit that is no line
    terminator, and the star is lazy: the group ends at the first place
    where the closing delimiter follows. *)

Definition asterisk : jschar := 42.

Fixpoint strip_prefix (p s : jsstring) : option jsstring :=
  match p, s with
  | [], _ => Some s
  | _ :: _, [] => None
  | a :: p', b :: s' => if a =? b then strip_prefix p' s' else None
  end.

(** [(.*?)d] matched at the start of [s]: the captured group and the
    number of code units consumed, closing delimiter included. *)
Fixpoint lazy_group (d s : jsstring) : option (jsstring * nat) :=
  match strip_prefix d s with
  | Some _ => Some ([], length d)
  | None =>
      match s with
      | [] => None
      | c :: s' =>
          if is_line_terminator c then None
          else match lazy_group d s' with
               | Some (g, n) => Some (c :: g, S n)
               | None => None
               end
      end
  end.

(** [d(.*?)d] matched at the start of [s]: the group and the length of the
    whole match. *)
Definition match_at (d s : jsstring) : option (jsstring * nat) :=
  match strip_prefix d s with
  | Some r =>
      match lazy_group d r with
      | Some (g, n) => Some (g, (length d + n)%nat)
      | None => None
      end
  | None => None
  end.

(** [s.replace(/d(.*?)d/g, '$1')]: scanning from the left, the leftmost
    match is replaced by its group and the scan resumes after the match;
    a code unit where no match starts is copied.  The delimiters used are
    not empty, so a match is never empty. *)
Equations? replace_group (d s : jsstring) : jsstring by wf (length s) lt :=
  replace_group d [] := [];
  replace_group d (c :: s') with match_at d (c :: s') => {
    | Some (g, n) := g ++ replace_group d (drop (pred n) s');
    | None := c :: replace_group d s' }.
Proof. all: simpl; try rewrite length_drop; lia. Qed.

Definition beautifyPlainText (text : jsstring) : jsstring :=
  let clean := replace_group [asterisk; asterisk] text in
  let clean := replace_group [asterisk] clean in
  clean.

(** ** Data model *)

Inductive Sender := ai | user.

#[global] Instance Sender_eq_dec : EqDecision Sender.
Proof. solve_decision. Defined.

(** [parentId?: string | null]: [None] stands for both [null] and an absent
    property, which the code never tells apart.  [timestamp] is the time
    value of the [Date], in milliseconds.  [isCode?: boolean]: [None] is an
    absent property. *)
Record Message := {
  id : jsstring;
  text : jsstring;
  sender : Sender;
  parentId : option jsstring;
  timestamp : Z;
  isCode : option bool
}.

(** [Partial<Message>]: every property may be absent. *)
Record PartialMessage := {
  p_id : option jsstring;
  p_text : option jsstring;
  p_sender : option Sender;
  p_parentId : option jsstring;
  p_timestamp : option Z;
  p_isCode : option bool
}.

Definition emptyPartial : PartialMessage :=
  {| p_id := None; p_text := None; p_sender := None;
     p_parentId := None; p_timestamp := None; p_isCode := None |}.

(** The data properties of [MessageState]. *)
Record MessageState := {
  messages : list Message;
  input : jsstring;
  showModal : bool;
  isFocused : bool;
  isLoading : bool;
  currentStreamingMessage : option jsstring;
  latestAIMessageId : option jsstring
}.

Definition initialState : MessageState :=
  {| messages := []; input := []; showModal := false; isFocused := false;
     isLoading := false; currentStreamingMessage := None;
     latestAIMessageId := None |}.

(** [{ ...msg, text: t }] *)
Definition with_text (msg : Message) (t : jsstring) : Message :=
  {| id := id msg; text := t; sender := sender msg;
     parentId := parentId msg; timestamp := timestamp msg;
     isCode := isCode msg |}.

(** [set({ messages: ms })] and its siblings: the store merges the given
    properties into the state and keeps the others. *)
Definition set_messages (ms : list Message) (st : MessageState) : MessageState :=
  {| messages := ms; input := input st; showModal := showModal st;
     isFocused := isFocused st; isLoading := isLoading st;
     currentStreamingMessage := currentStreamingMessage st;
     latestAIMessageId := latestAIMessageId st |}.

Definition setInput (t : jsstring) (st : MessageState) : MessageState :=
  {| messages := messages st; input := t; showModal := showModal st;
     isFocused := isFocused st; isLoading := isLoading st;
     currentStreamingMessage := currentStreamingMessage st;
     latestAIMessageId := latestAIMessageId st |}.

Definition setShowModal (value : bool) (st : MessageState) : MessageState :=
  {| messages := messages st; input := input st; showModal := value;
     isFocused := isFocused st; isLoading := isLoading st;
     currentStreamingMessage := currentStreamingMessage st;
     latestAIMessageId := latestAIMessageId st |}.

Definition setIsFocused (focused : bool) (st : MessageState) : MessageState :=
  {| messages := messages st; input := input st; showModal := showModal st;
     isFocused := focused; isLoading := isLoading st;
     currentStreamingMessage := currentStreamingMessage st;
     latestAIMessageId := latestAIMessageId st |}.

Definition setIsLoading (loading : bool) (st : MessageState) : MessageState :=
  {| messages := messages st; input := input st; showModal := showModal st;
     isFocused := isFocused st; isLoading := loading;
     currentStreamingMessage := currentStreamingMessage st;
     latestAIMessageId := latestAIMessageId st |}.

(** ** The environment

    What a call obtains from outside the store is passed to it: the
    identifier generator's result, the clock readings, and the behaviour of
    the generative-text service. *)

(** How the stream of one request behaves: the fragments it yields, in
    order, and whether it then completes or throws.  A request that fails at
    submission yields no fragment and throws. *)
Inductive StreamEnd := Completes | Throws.

Record ResponseStream := {
  fragments : list jsstring;
  ending : StreamEnd
}.

Record AddEnv := {
  uuidv4 : jsstring;      (* the result of [uuidv4()], when it is called *)
  new_Date : Z            (* the result of [new Date()], when it is called *)
}.

Record StreamEnv := {
  Date_now : Z;                                   (* [Date.now()] *)
  stream_new_Date : Z;                            (* [new Date()] *)
  generateContentStream : jsstring -> ResponseStream
}.

(** How an awaited call ends. *)
Inductive Completion := Resolved | Rejected.

(** ** addMessage *)

Definition addMessage (env : AddEnv) (messageData : PartialMessage)
    (st : MessageState) : Message * MessageState :=
  let message :=
    {| id := string_or (p_id messageData) (uuidv4 env);
       text := string_or (p_text messageData) [];
       sender := default user (p_sender messageData);
       timestamp := default (new_Date env) (p_timestamp messageData);
       isCode := Some (default false (p_isCode messageData));
       parentId := match p_parentId messageData with
                   | Some p => if truthy p then Some p else None
                   | None => None
                   end |} in
  (message,
   {| messages := messages st ++ [message];
      latestAIMessageId :=
        match sender message with
        | user => Some (id message)
        | ai => latestAIMessageId st
        end;
      input := input st; showModal := showModal st;
      isFocused := isFocused st; isLoading := isLoading st;
      currentStreamingMessage := currentStreamingMessage st |}).

(** ** sendToGeminiStream *)

Definition streamError : jsstring :=
  js "Error: Could not process your request.".

(** The instruction ends with a double quote character. *)
Definition instruction : jsstring :=
  js "Your name is Juggernaut, in short Jugg" ++ [34].

(** The first update: the new AI message is appended and becomes the
    streaming target. *)
Definition allocateStreamingMessage (aiMessageId : jsstring) (now : Z)
    (state : MessageState) : MessageState :=
  {| messages := messages state ++
       [ {| id := aiMessageId; text := []; sender := ai; timestamp := now;
            parentId := latestAIMessageId state; isCode := None |} ];
     currentStreamingMessage := Some aiMessageId;
     latestAIMessageId := Some aiMessageId;
     input := input state; showModal := showModal state;
     isFocused := isFocused state; isLoading := isLoading state |}.

(** The update made for one chunk. *)
Definition appendChunk (textChunk : jsstring) (state : MessageState)
    : MessageState :=
  let updatedMessages :=
    map (fun msg =>
           if decide (Some (id msg) = currentStreamingMessage state)
           then with_text msg (text msg ++ beautifyPlainText textChunk)
           else msg)
        (messages state) in
  set_messages updatedMessages state.

(** The update made in the [catch] block. *)
Definition replaceWithError (state : MessageState) : MessageState :=
  let updatedMessages :=
    map (fun msg =>
           if decide (Some (id msg) = currentStreamingMessage state)
           then with_text msg streamError
           else msg)
        (messages state) in
  set_messages updatedMessages state.

(** The update made in the [finally] block. *)
Definition clearStreaming (st : MessageState) : MessageState :=
  {| isLoading := false; currentStreamingMessage := None;
     messages := messages st; input := input st; showModal := showModal st;
     isFocused := isFocused st; latestAIMessageId := latestAIMessageId st |}.

(** The [try] block: the request is submitted and every fragment the stream
    yields is applied, in order; the block ends as the stream does. *)
Definition streamChunks (env : StreamEnv) (userMessage : jsstring)
    (st : MessageState) : MessageState * Completion :=
  let responseStream := generateContentStream env (instruction ++ userMessage) in
  (fold_left (fun st textChunk => appendChunk textChunk st)
             (fragments responseStream) st,
   match ending responseStream with
   | Completes => Resolved
   | Throws => Rejected
   end).

(** The call is taken from its first update to its last: no other call of
    the store changes the state while it awaits the stream. *)
Definition sendToGeminiStream (env : StreamEnv) (userMessage : jsstring)
    (st : MessageState) : MessageState * Completion :=
  let aiMessageId := Number_toString (Date_now env + 1) in
  let st := allocateStreamingMessage aiMessageId (stream_new_Date env) st in
  let '(st, c) := streamChunks env userMessage st in
  let st := match c with
            | Resolved => st
            | Rejected => replaceWithError st
            end in
  (* the [catch] block does not throw, so the call ends normally once the
     [finally] block has run *)
  (clearStreaming st, Resolved).

(** ** handleAIResponse, replyToMessage, sendMessage *)

Record TurnEnv := {
  user_env : AddEnv;          (* for the user message *)
  stream_env : StreamEnv;     (* for the streaming handler *)
  fallback_env : AddEnv       (* for the fallback message of the [catch] *)
}.

Definition fallbackText : jsstring :=
  js "Sorry, I encountered an error processing your request.".

Definition handleAIResponse (env : TurnEnv) (userMessage : jsstring)
    (st : MessageState) : MessageState :=
  if negb (truthy (trim userMessage)) then st
  else
    let '(message, st) :=
      addMessage (user_env env)
        {| p_sender := Some user; p_text := Some userMessage;
           p_isCode := Some false;
           p_id := None; p_parentId := None; p_timestamp := None |} st in
    let st := setIsLoading true st in
    match sendToGeminiStream (stream_env env) userMessage st with
    | (st, Resolved) => st
    | (st, Rejected) =>
        let '(_, st) :=
          addMessage (fallback_env env)
            {| p_sender := Some ai; p_text := Some fallbackText;
               p_isCode := Some false; p_parentId := Some (id message);
               p_id := None; p_timestamp := None |} st in
        setIsLoading false st
    end.

Definition replyToMessage (env : TurnEnv) (parent : jsstring)
    (t : jsstring) (st : MessageState) : MessageState :=
  if negb (truthy (trim t)) then st
  else
    let '(userMessage, st) :=
      addMessage (user_env env)
        {| p_sender := Some user; p_text := Some t; p_isCode := Some false;
           p_parentId := Some parent;
           p_id := None; p_timestamp := None |} st in
    let st := setIsLoading true st in
    match sendToGeminiStream (stream_env env)
            (js "Reply to message: " ++ t) st with
    | (st, Resolved) => st
    | (st, Rejected) =>
        let '(_, st) :=
          addMessage (fallback_env env)
            {| p_sender := Some ai; p_text := Some fallbackText;
               p_isCode := Some false; p_parentId := Some (id userMessage);
               p_id := None; p_timestamp := None |} st in
        setIsLoading false st
    end.

Definition sendMessage (env : TurnEnv) (st : MessageState) : MessageState :=
  if negb (truthy (trim (input st))) then st
  else
    let messageText := input st in
    let st := setInput [] st in
    handleAIResponse env messageText st.

(** ** buildmessageTree

    The nodes live in [nodeMap], one per key.  A node's [replies] array and
    the [roots] array hold references to nodes; a reference is kept as the
    key under which the node is stored, so that a node pushed to several
    arrays is the same node in each. *)

Record MessageNode := {
  message : Message;
  replies : list jsstring
}.

Definition push_reply (node : jsstring) (parentNode : MessageNode) : MessageNode :=
  {| message := message parentNode; replies := replies parentNode ++ [node] |}.

(** First loop: one node per message, a later message replacing the node of
    an earlier one with the same id. *)
Definition initNodes (msgs : list Message) : gmap jsstring MessageNode :=
  fold_left (fun nodeMap msg =>
               <[id msg := {| message := msg; replies := [] |}]> nodeMap)
            msgs ∅.

(** [message.parentId && nodeMap.has(message.parentId)] *)
Definition resolvedParent (nodeMap : gmap jsstring MessageNode)
    (msg : Message) : option jsstring :=
  match parentId msg with
  | Some p =>
      if truthy p && bool_decide (is_Some (nodeMap !! p)) then Some p
      else None
  | None => None
  end.

(** Second loop, one message. *)
Definition linkNode (acc : list jsstring * gmap jsstring MessageNode)
    (msg : Message) : list jsstring * gmap jsstring MessageNode :=
  let '(roots, nodeMap) := acc in
  let node := id msg in
  match resolvedParent nodeMap msg with
  | Some p => (roots, alter (push_reply node) p nodeMap)
  | None => (roots ++ [node], nodeMap)
  end.

(** The result: the [roots] array and the nodes it refers to. *)
Definition buildmessageTree (msgs : list Message)
    : list jsstring * gmap jsstring MessageNode :=
  fold_left linkNode msgs ([], initNodes msgs).

(** The forest a consumer reads from the result, down to a given depth
    (a cycle of [parentId]s makes it infinite). *)
#[warnings="-register-all"]
Inductive Tree := TreeNode (m : Message) (children : list Tree).

Fixpoint readNode (depth : nat) (nodeMap : gmap jsstring MessageNode)
    (node : jsstring) : list Tree :=
  match depth with
  | O => []
  | S depth' =>
      match nodeMap !! node with
      | Some n =>
          [TreeNode (message n)
                    (concat (map (readNode depth' nodeMap) (replies n)))]
      | None => []
      end
  end.

Definition readForest (depth : nat)
    (result : list jsstring * gmap jsstring MessageNode) : list Tree :=
  concat (map (readNode depth (snd result)) (fst result)).

(** ** Runs of the store *)

Inductive Op :=
| OpAddMessage (env : AddEnv) (messageData : PartialMessage)
| OpSendToGeminiStream (env : StreamEnv) (userMessage : jsstring).

Definition step (st : MessageState) (op : Op) : MessageState :=
  match op with
  | OpAddMessage env messageData => snd (addMessage env messageData st)
  | OpSendToGeminiStream env userMessage =>
      fst (sendToGeminiStream env userMessage st)
  end.

Definition run (ops : list Op) (st : MessageState) : MessageState :=
  fold_left step ops st.

(** The id an operation gives to the message it appends. *)
Definition assignedId (op : Op) : jsstring :=
  match op with
  | OpAddMessage env messageData => string_or (p_id messageData) (uuidv4 env)
  | OpSendToGeminiStream env _ => Number_toString (Date_now env + 1)
  end.

Definition ids (st : MessageState) : list jsstring := map id (messages st).

(** Every operation of the run assigns an id that the sequence does not
    hold when the operation starts. *)
Fixpoint assignsFreshIds (ops : list Op) (st : MessageState) : Prop :=
  match ops with
  | [] => True
  | op :: ops' => (assignedId op ∉ ids st) /\ assignsFreshIds ops' (step st op)
  end.

(** ** Auxiliary notions used in the statements *)

(** The messages of a sequence whose id is [cur] get their text rewritten
    by [f]; this is the shape of both text updates of the streaming
    handler. *)
Definition retext (cur : option jsstring) (f : jsstring -> jsstring)
    (msgs : list Message) : list Message :=
  map (fun msg => if decide (Some (id msg) = cur)
                  then with_text msg (f (text msg)) else msg) msgs.

(** A string made of white space and line terminators only. *)
Definition blank (s : jsstring) : Prop :=
  Forall (fun c => is_trimmed_char c = true) s.

(** [st'] differs from [st] at most in the [text] of the messages whose id
    is the streaming target of [st]. *)
Definition text_only_update (st st' : MessageState) : Prop :=
  length (messages st') = length (messages st) /\
  (forall i msg, messages st !! i = Some msg ->
     exists msg', messages st' !! i = Some msg' /\
       id msg' = id msg /\ sender msg' = sender msg /\
       parentId msg' = parentId msg /\ timestamp msg' = timestamp msg /\
       isCode msg' = isCode msg /\
       (Some (id msg) <> currentStreamingMessage st -> msg' = msg)) /\
  input st' = input st /\ showModal st' = showModal st /\
  isFocused st' = isFocused st /\ isLoading st' = isLoading st /\
  currentStreamingMessage st' = currentStreamingMessage st /\
  latestAIMessageId st' = latestAIMessageId st.

(** The claims about [addMessage] and [handleAIResponse], as the
    specification words them. *)

(** The tracker follows the appended message exactly when its sender is
    [ai]. *)
Definition tracksAISender (env : AddEnv) (messageData : PartialMessage)
    (st : MessageState) : Prop :=
  let '(message, st') := addMessage env messageData st in
  (sender message = ai -> latestAIMessageId st' = Some (id message)) /\
  (sender message = user -> latestAIMessageId st' = latestAIMessageId st).

(** The AI message of a turn is parented to the id that was tracked before
    the turn started. *)
Definition chainsToPreviousAI (env : TurnEnv) (userMessage : jsstring)
    (st : MessageState) : Prop :=
  forall a,
    messages (handleAIResponse env userMessage st)
      !! S (length (messages st)) = Some a ->
    parentId a = latestAIMessageId st.

(** ** Sample inputs *)

Definition sample_stream (frags : list jsstring) (e : StreamEnd) : StreamEnv :=
  {| Date_now := 1730000000000; stream_new_Date := 1730000000000;
     generateContentStream := fun _ => {| fragments := frags; ending := e |} |}.

Definition sample_add (uuid : string) : AddEnv :=
  {| uuidv4 := js uuid; new_Date := 1730000000000 |}.

Definition sample_turn (uuid : string) (now : Z) (frags : list jsstring)
    : TurnEnv :=
  {| user_env := {| uuidv4 := js uuid; new_Date := now |};
     stream_env :=
       {| Date_now := now; stream_new_Date := now;
          generateContentStream :=
            fun _ => {| fragments := frags; ending := Completes |} |};
     fallback_env := {| uuidv4 := js "fallback"; new_Date := now |} |}.

(** The state after one complete turn: a user message with id "u1" and the
    AI message with id "1001" under it. *)
Definition after_first_turn : MessageState :=
  handleAIResponse (sample_turn "u1" 1000 [js "Hello"]) (js "hi") initialState.

(** Two calls of [addMessage] that are given the same id. *)
Definition duplicate_id_run : list Op :=
  [ OpAddMessage (sample_add "unused")
      {| p_id := Some (js "a"); p_text := Some (js "first");
         p_sender := None; p_parentId := None; p_timestamp := None;
         p_isCode := None |};
    OpAddMessage (sample_add "unused")
      {| p_id := Some (js "a"); p_text := Some (js "second");
         p_sender := None; p_parentId := None; p_timestamp := None;
         p_isCode := None |} ].

Definition fresh_id_run : list Op :=
  [ OpAddMessage (sample_add "u1") emptyPartial;
    OpSendToGeminiStream (sample_stream [js "Hello"] Completes) (js "hi") ].

(** ** Positions in the result of [buildmessageTree] *)

(** The arrays a node reference can be pushed to: [roots], or the [replies]
    of the node stored under a key. *)
Inductive Position := AtRoot | InRepliesOf (p : jsstring).

#[global] Instance Position_eq_dec : EqDecision Position.
Proof. solve_decision. Defined.

Fixpoint count (k : jsstring) (l : list jsstring) : nat :=
  match l with
  | [] => 0
  | x :: l' => (if decide (x = k) then 1 else 0) + count k l'
  end.

(** How many times the reference [k] occurs in the array at [pos]. *)
Definition occurrences (result : list jsstring * gmap jsstring MessageNode)
    (pos : Position) (k : jsstring) : nat :=
  match pos with
  | AtRoot => count k (fst result)
  | InRepliesOf p =>
      match snd result !! p with
      | Some n => count k (replies n)
      | None => 0
      end
  end.

(** Where the specification puts the node of [m]: under its parent when
    [parentId] is set (a non-empty string) and is the id of a message of
    the sequence, else at the root. *)
Definition expectedPosition (msgs : list Message) (m : Message) : Position :=
  match parentId m with
  | Some p =>
      if truthy p && bool_decide (p ∈ map id msgs) then InRepliesOf p
      else AtRoot
  | None => AtRoot
  end.

(** Every message has its node, and the node is at its expected position,
    once, and nowhere else. *)
Definition placedExactlyOnce (msgs : list Message) : Prop :=
  forall m, m ∈ msgs ->
    (exists n, snd (buildmessageTree msgs) !! id m = Some n /\ message n = m) /\
    forall pos,
      occurrences (buildmessageTree msgs) pos (id m)
      = if decide (pos = expectedPosition msgs m) then 1%nat else 0%nat.

(** [n.replies.push(...ks)] *)
Definition add_replies (ks : list jsstring) (n : MessageNode) : MessageNode :=
  {| message := message n; replies := replies n ++ ks |}.

(** Two messages with the same id. *)
Definition twin_first : Message :=
  {| id := js "a"; text := js "first"; sender := user; parentId := None;
     timestamp := 1000; isCode := Some false |}.

Definition twin_second : Message :=
  {| id := js "a"; text := js "second"; sender := user; parentId := None;
     timestamp := 2000; isCode := Some false |}.

(** A short thread with distinct ids: a root, a reply to it, and a message
    whose parent is not in the sequence. *)
Definition thread : list Message :=
  [ {| id := js "m1"; text := js "hi"; sender := user; parentId := None;
       timestamp := 1000; isCode := Some false |};
    {| id := js "m2"; text := js "hello"; sender := ai;
       parentId := Some (js "m1"); timestamp := 1001; isCode := None |};
    {| id := js "m3"; text := js "lost"; sender := user;
       parentId := Some (js "gone"); timestamp := 1002; isCode := Some false |} ].

(** ** Calls of the store

    Every function the store offers, as one call; [calls] runs a sequence
    of them, each to its end. *)

Inductive Call :=
| CallAddMessage (env : AddEnv) (messageData : PartialMessage)
| CallSetInput (t : jsstring)
| CallSetShowModal (value : bool)
| CallSetIsFocused (value : bool)
| CallSetIsLoading (value : bool)
| CallSendToGeminiStream (env : StreamEnv) (userMessage : jsstring)
| CallHandleAIResponse (env : TurnEnv) (userMessage : jsstring)
| CallReplyToMessage (env : TurnEnv) (parent : jsstring) (t : jsstring)
| CallSendMessage (env : TurnEnv).

Definition call (st : MessageState) (c : Call) : MessageState :=
  match c with
  | CallAddMessage env messageData => snd (addMessage env messageData st)
  | CallSetInput t => setInput t st
  | CallSetShowModal value => setShowModal value st
  | CallSetIsFocused value => setIsFocused value st
  | CallSetIsLoading value => setIsLoading value st
  | CallSendToGeminiStream env userMessage =>
      fst (sendToGeminiStream env userMessage st)
  | CallHandleAIResponse env userMessage => handleAIResponse env userMessage st
  | CallReplyToMessage env parent t => replyToMessage env parent t st
  | CallSendMessage env => sendMessage env st
  end.

Definition calls (cs : list Call) (st : MessageState) : MessageState :=
  fold_left call cs st.

(** Everything of a message but its text. *)
Definition header (m : Message)
    : jsstring * Sender * option jsstring * Z * option bool :=
  (id m, sender m, parentId m, timestamp m, isCode m).

(** The tracker is null or the id of a message of the sequence. *)
Definition trackerValid (st : MessageState) : Prop :=
  forall k, latestAIMessageId st = Some k -> k ∈ ids st.

(** A state that already holds a message with the id the sample stream
    will assign. *)
Definition collision_state : MessageState :=
  snd (addMessage (sample_add "unused")
         {| p_id := Some (js "1730000000001"); p_text := Some (js "old ");
            p_sender := Some user; p_parentId := None; p_timestamp := None;
            p_isCode := None |}
         initialState).

(** A run that uses every kind of call. *)
Definition sample_session : list Call :=
  [ CallSetInput (js "hi");
    CallSetIsFocused true;
    CallSendMessage (sample_turn "u1" 1000 [js "Hel"; js "lo"]);
    CallAddMessage (sample_add "n1")
      {| p_id := None; p_text := Some (js "note"); p_sender := Some ai;
         p_parentId := Some (js "u1"); p_timestamp := None;
         p_isCode := Some true |};
    CallReplyToMessage (sample_turn "u2" 2000 [js "ok"]) (js "1001")
      (js "why?");
    CallSetShowModal true;
    CallSetIsLoading true;
    CallHandleAIResponse (sample_turn "u3" 3000 [js "yes"]) (js "sure?");
    CallSendToGeminiStream (sample_stream [js "x"] Throws) (js "again") ].

(** Two messages that name each other as parent, and a message that names
    itself. *)
Definition parent_cycle : list Message :=
  [ {| id := js "a"; text := js "ping"; sender := user;
       parentId := Some (js "b"); timestamp := 1000; isCode := None |};
    {| id := js "b"; text := js "pong"; sender := ai;
       parentId := Some (js "a"); timestamp := 1001; isCode := None |};
    {| id := js "c"; text := js "self"; sender := user;
       parentId := Some (js "c"); timestamp := 1002; isCode := None |} ].

(** ** Conversations

    A conversation is a run of turns, each a [handleAIResponse] call with
    its environment and its text. *)

Definition conversation (turns : list (TurnEnv * jsstring))
    (st : MessageState) : MessageState :=
  fold_left (fun st turn => handleAIResponse (fst turn) (snd turn) st)
            turns st.

(** The ids a turn gives to its two messages. *)
Definition userId (turn : TurnEnv * jsstring) : jsstring :=
  uuidv4 (user_env (fst turn)).

Definition aiId (turn : TurnEnv * jsstring) : jsstring :=
  Number_toString (Date_now (stream_env (fst turn)) + 1).

(** The id and the parentId of a message: what the tree builder reads. *)
Definition link (m : Message) : jsstring * option jsstring :=
  (id m, parentId m).

Definition turnLinks (turn : TurnEnv * jsstring)
    : list (jsstring * option jsstring) :=
  [ (userId turn, None); (aiId turn, Some (userId turn)) ].

(** [expectedPosition], from the ids of the sequence and a parentId. *)
Definition expectedOf (known : list jsstring) (parent : option jsstring)
    : Position :=
  match parent with
  | Some p =>
      if truthy p && bool_decide (p ∈ known) then InRepliesOf p else AtRoot
  | None => AtRoot
  end.

Definition sample_conversation : list (TurnEnv * jsstring) :=
  [ (sample_turn "u1" 1000 [js "Hello"], js "hi");
    (sample_turn "u2" 2000 [js "**Fine**"], js "how are you?");
    (sample_turn "u3" 3000 [js "Bye"], js "bye") ].

(** The partial record that gives every property of a message. *)
Definition completePartial (m : Message) : PartialMessage :=
  {| p_id := Some (id m); p_text := Some (text m);
     p_sender := Some (sender m); p_parentId := parentId m;
     p_timestamp := Some (timestamp m); p_isCode := isCode m |}.

(** * Properties *)

(** ** Strings *)

Lemma trimStart_nil_iff s : trimStart s = [] <-> blank s.
Proof.
  unfold blank. induction s as [|c s IH]; simpl.
  - split; [constructor | reflexivity].
  - destruct (is_trimmed_char c) eqn:E.
    + rewrite IH. split; [by constructor | by inversion 1].
    + split; [discriminate | inversion 1; congruence].
Qed.

Lemma trimStart_head s c s' :
  trimStart s = c :: s' -> is_trimmed_char c = false.
Proof.
  induction s as [|a s IH]; simpl; [discriminate|].
  destruct (is_trimmed_char a) eqn:E; [exact IH|].
  intros [= <- _]. exact E.
Qed.

Lemma trim_nil_iff s : trim s = [] <-> blank s.
Proof.
  unfold trim, trimEnd. split.
  - intros H. apply (f_equal (@rev _)) in H. rewrite rev_involutive in H.
    simpl in H. apply trimStart_nil_iff in H.
    destruct (trimStart s) as [|c s'] eqn:E.
    + by apply trimStart_nil_iff.
    + apply trimStart_head in E. unfold blank in H.
      rewrite Forall_forall in H.
      assert (is_trimmed_char c = true) as Hc.
      { apply H. rewrite <- in_rev. by left. }
      congruence.
  - intros H. apply trimStart_nil_iff in H. by rewrite H.
Qed.

Lemma blank_falsy s : negb (truthy (trim s)) = true <-> blank s.
Proof.
  rewrite <- trim_nil_iff. destruct (trim s); simpl; split; congruence.
Qed.

(** ** The cleanup transform *)

Lemma strip_prefix_head_ne a p c s :
  a <> c -> strip_prefix (a :: p) (c :: s) = None.
Proof. intros H. simpl. destruct (N.eqb_spec a c); [done|reflexivity]. Qed.

Lemma match_at_head_ne a p c s :
  a <> c -> match_at (a :: p) (c :: s) = None.
Proof. intros H. unfold match_at. by rewrite strip_prefix_head_ne. Qed.

(** A string that does not hold the first code unit of the delimiter is
    left as it is. *)
Lemma replace_group_absent a p s :
  a ∉ s -> replace_group (a :: p) s = s.
Proof.
  induction s as [|c s IH]; intros H; simp replace_group; [done|].
  apply not_elem_of_cons in H as [Hac Hs].
  rewrite match_at_head_ne by done.
  simpl. by rewrite IH.
Qed.

Lemma strip_prefix_app d r : strip_prefix d (d ++ r) = Some r.
Proof.
  induction d as [|a d IH]; simpl; [by destruct r|].
  by rewrite N.eqb_refl.
Qed.

Lemma lazy_group_closed a p body r :
  a ∉ body ->
  Forall (fun c => is_line_terminator c = false) body ->
  lazy_group (a :: p) (body ++ (a :: p) ++ r)
  = Some (body, (length body + length (a :: p))%nat).
Proof.
  intros Ha Hlt. induction Hlt as [|c body Hc Hlt IH].
  - cbn [app]. unfold lazy_group.
    change (a :: p ++ r) with ((a :: p) ++ r).
    rewrite strip_prefix_app. by destruct p.
  - apply not_elem_of_cons in Ha as [Hac Ha].
    cbn [app lazy_group]. rewrite strip_prefix_head_ne by done.
    rewrite Hc. cbn [app] in IH. by rewrite IH.
Qed.

(** A delimited group whose body holds neither the delimiter's first code
    unit nor a line terminator is replaced by its body. *)
Lemma replace_group_wrapped a p body :
  a ∉ body ->
  Forall (fun c => is_line_terminator c = false) body ->
  replace_group (a :: p) ((a :: p) ++ body ++ (a :: p)) = body.
Proof.
  intros Ha Hlt. cbn [app]. simp replace_group.
  assert (match_at (a :: p) (a :: p ++ body ++ a :: p)
          = Some (body, (length (a :: p) + (length body + length (a :: p)))%nat))
    as ->.
  { unfold match_at. change (a :: p ++ ?x) with ((a :: p) ++ x).
    rewrite strip_prefix_app.
    pose proof (lazy_group_closed a p body [] Ha Hlt) as E.
    rewrite app_nil_r in E. by rewrite E. }
  simpl. rewrite drop_ge.
  - simp replace_group. by rewrite app_nil_r.
  - rewrite !length_app. simpl. lia.
Qed.

Lemma replace_double_tail a body :
  a ∉ body -> replace_group [a; a] (body ++ [a]) = body ++ [a].
Proof.
  induction body as [|c body IH]; intros H; cbn [app]; simp replace_group.
  - unfold match_at. simpl. rewrite N.eqb_refl. simpl.
    by simp replace_group.
  - apply not_elem_of_cons in H as [Hac H].
    rewrite match_at_head_ne by done. simpl. by rewrite IH.
Qed.

Lemma replace_double_single a body :
  a ∉ body ->
  replace_group [a; a] ([a] ++ body ++ [a]) = [a] ++ body ++ [a].
Proof.
  intros H. cbn [app]. simp replace_group.
  assert (match_at [a; a] (a :: body ++ [a]) = None) as ->.
  { unfold match_at. cbn [strip_prefix]. rewrite N.eqb_refl.
    destruct body as [|c body]; cbn [app].
    - simpl. by rewrite N.eqb_refl.
    - apply not_elem_of_cons in H as [Hac H].
      by destruct (N.eqb_spec a c). }
  simpl. by rewrite replace_double_tail.
Qed.

Lemma beautify_without_asterisk s :
  asterisk ∉ s -> beautifyPlainText s = s.
Proof.
  intros H. unfold beautifyPlainText.
  rewrite (replace_group_absent _ _ s) by done.
  by rewrite replace_group_absent.
Qed.

Lemma beautify_double body :
  asterisk ∉ body ->
  Forall (fun c => is_line_terminator c = false) body ->
  beautifyPlainText ([asterisk; asterisk] ++ body ++ [asterisk; asterisk])
  = body.
Proof.
  intros Ha Hlt. unfold beautifyPlainText.
  rewrite replace_group_wrapped by done. by rewrite replace_group_absent.
Qed.

Lemma beautify_single body :
  asterisk ∉ body ->
  Forall (fun c => is_line_terminator c = false) body ->
  beautifyPlainText ([asterisk] ++ body ++ [asterisk]) = body.
Proof.
  intros Ha Hlt. unfold beautifyPlainText.
  rewrite replace_double_single by done.
  by rewrite replace_group_wrapped.
Qed.

(** ** The streaming handler *)

Lemma with_text_id msg : with_text msg (text msg) = msg.
Proof. by destruct msg. Qed.

Lemma set_messages_id st : set_messages (messages st) st = st.
Proof. by destruct st. Qed.

Lemma retext_id cur f msgs :
  (forall t, f t = t) -> retext cur f msgs = msgs.
Proof.
  intros Hf. unfold retext. induction msgs as [|m msgs IH]; simpl; [done|].
  rewrite IH. case_decide; [|done]. by rewrite Hf, with_text_id.
Qed.

Lemma retext_retext cur f g msgs :
  retext cur f (retext cur g msgs) = retext cur (fun t => f (g t)) msgs.
Proof.
  unfold retext. rewrite map_map. apply map_ext. intros m.
  destruct (decide (Some (id m) = cur)) as [E|E]; simpl.
  - by rewrite decide_True.
  - by rewrite decide_False.
Qed.

Lemma retext_ext cur f g msgs :
  (forall t, f t = g t) -> retext cur f msgs = retext cur g msgs.
Proof.
  intros H. unfold retext. apply map_ext. intros m.
  case_decide; [|done]. by rewrite H.
Qed.

Lemma appendChunk_retext c st :
  appendChunk c st
  = set_messages (retext (currentStreamingMessage st)
                    (fun t => t ++ beautifyPlainText c) (messages st)) st.
Proof. reflexivity. Qed.

Lemma replaceWithError_retext st :
  replaceWithError st
  = set_messages (retext (currentStreamingMessage st)
                    (fun _ => streamError) (messages st)) st.
Proof. reflexivity. Qed.

(** All the chunk updates of a stream, taken together. *)
Lemma fold_appendChunk frags st :
  fold_left (fun st c => appendChunk c st) frags st
  = set_messages (retext (currentStreamingMessage st)
                    (fun t => t ++ concat (map beautifyPlainText frags))
                    (messages st)) st.
Proof.
  revert st. induction frags as [|c frags IH]; intros st; simpl.
  - rewrite retext_id; [by rewrite set_messages_id|].
    intros t. by rewrite app_nil_r.
  - rewrite IH. rewrite appendChunk_retext. unfold set_messages; simpl.
    rewrite retext_retext. f_equal. apply retext_ext.
    intros t. by rewrite app_assoc.
Qed.

Lemma retext_lookup cur f msgs i msg :
  msgs !! i = Some msg ->
  retext cur f msgs !! i
  = Some (if decide (Some (id msg) = cur)
          then with_text msg (f (text msg)) else msg).
Proof.
  intros H. unfold retext.
  change (map ?g msgs) with (g <$> msgs).
  by rewrite list_lookup_fmap, H.
Qed.

Lemma retext_length cur f msgs : length (retext cur f msgs) = length msgs.
Proof. apply length_map. Qed.

Lemma retext_frame cur f st :
  cur = currentStreamingMessage st ->
  text_only_update st (set_messages (retext cur f (messages st)) st).
Proof.
  intros ->. unfold text_only_update; simpl.
  split; [apply retext_length|]. split; [|done].
  intros i msg Hi. eexists. split; [by apply retext_lookup|].
  case_decide; simpl; repeat split; done.
Qed.

(** The messages of the state [sendToGeminiStream] ends in. *)
Lemma sendToGeminiStream_messages env userMessage st :
  let rs := generateContentStream env (instruction ++ userMessage) in
  let aiMessageId := Number_toString (Date_now env + 1) in
  messages (fst (sendToGeminiStream env userMessage st))
  = retext (Some aiMessageId)
      (fun t => match ending rs with
                | Completes => t ++ concat (map beautifyPlainText (fragments rs))
                | Throws => streamError
                end)
      (messages st ++
         [ {| id := aiMessageId; text := []; sender := ai;
              timestamp := stream_new_Date env;
              parentId := latestAIMessageId st; isCode := None |} ]).
Proof.
  intros rs aiMessageId. unfold sendToGeminiStream, streamChunks.
  fold rs. fold aiMessageId. rewrite fold_appendChunk.
  destruct (ending rs); simpl; [done|].
  apply (retext_retext (Some aiMessageId) (fun _ => streamError)).
Qed.

Lemma sendToGeminiStream_new_message env userMessage st :
  let rs := generateContentStream env (instruction ++ userMessage) in
  let aiMessageId := Number_toString (Date_now env + 1) in
  messages (fst (sendToGeminiStream env userMessage st)) !! length (messages st)
  = Some {| id := aiMessageId;
            text := match ending rs with
                    | Completes => concat (map beautifyPlainText (fragments rs))
                    | Throws => streamError
                    end;
            sender := ai; timestamp := stream_new_Date env;
            parentId := latestAIMessageId st; isCode := None |}.
Proof.
  intros rs aiMessageId. rewrite sendToGeminiStream_messages.
  fold rs. fold aiMessageId.
  erewrite retext_lookup; [|by apply list_lookup_middle].
  simpl. rewrite decide_True by done.
  unfold with_text; simpl. by destruct (ending rs).
Qed.

(** C2: when the stream completes normally, the text of the message that
    [sendToGeminiStream] allocated is the concatenation, in order, of the
    cleaned-up fragments; the cleanup removes a pair of double asterisks
    and a pair of single asterisks around a body that holds no asterisk and
    no line terminator and leaves text without asterisks alone; the
    fragments "Hel", "**lo** ", "*world*" give "Hello world". *)
Theorem sendToGeminiStream_concatenates_cleaned_fragments
    (env : StreamEnv) (userMessage : jsstring) (st : MessageState) :
  let rs := generateContentStream env (instruction ++ userMessage) in
  ending rs = Completes ->
  (exists m,
     messages (fst (sendToGeminiStream env userMessage st))
       !! length (messages st) = Some m /\
     id m = Number_toString (Date_now env + 1) /\
     currentStreamingMessage
       (allocateStreamingMessage (id m) (stream_new_Date env) st)
       = Some (id m) /\
     text m = concat (map beautifyPlainText (fragments rs)) /\
     (fragments rs = [js "Hel"; js "**lo** "; js "*world*"] ->
      text m = js "Hello world")) /\
  (forall body,
     asterisk ∉ body ->
     Forall (fun c => is_line_terminator c = false) body ->
     beautifyPlainText ([asterisk; asterisk] ++ body ++ [asterisk; asterisk])
       = body /\
     beautifyPlainText ([asterisk] ++ body ++ [asterisk]) = body) /\
  (forall s, asterisk ∉ s -> beautifyPlainText s = s).
Proof.
  intros rs Hend. split; [|split].
  - eexists. split; [apply sendToGeminiStream_new_message|].
    fold rs. rewrite Hend. simpl. repeat split; try done.
    by intros ->.
  - intros body Ha Hlt. split; [by apply beautify_double|by apply beautify_single].
  - apply beautify_without_asterisk.
Qed.

(** The theorem at the three fragments of the example. *)
Lemma sendToGeminiStream_concatenates_witness :
  ending (generateContentStream
            (sample_stream [js "Hel"; js "**lo** "; js "*world*"] Completes)
            (instruction ++ js "hi")) = Completes /\
  exists m,
    messages (fst (sendToGeminiStream
                     (sample_stream [js "Hel"; js "**lo** "; js "*world*"]
                        Completes)
                     (js "hi") initialState)) !! 0%nat = Some m /\
    text m = js "Hello world".
Proof.
  split; [reflexivity|].
  destruct (proj1 (sendToGeminiStream_concatenates_cleaned_fragments
                     (sample_stream [js "Hel"; js "**lo** "; js "*world*"]
                        Completes)
                     (js "hi") initialState eq_refl))
    as (m & H1 & _ & _ & _ & H5).
  exists m. split; [exact H1 | apply H5; reflexivity].
Defined.

(** C5: when the stream throws, at submission or after any number of
    fragments, the text of the message that [sendToGeminiStream] allocated
    is the fixed error string, whatever had been streamed into it. *)
Theorem sendToGeminiStream_error_replaces_text
    (env : StreamEnv) (userMessage : jsstring) (st : MessageState) :
  ending (generateContentStream env (instruction ++ userMessage)) = Throws ->
  exists m,
    messages (fst (sendToGeminiStream env userMessage st))
      !! length (messages st) = Some m /\
    id m = Number_toString (Date_now env + 1) /\
    text m = streamError /\
    streamError = js "Error: Could not process your request.".
Proof.
  intros Hend. eexists. split; [apply sendToGeminiStream_new_message|].
  rewrite Hend. simpl. done.
Qed.

(** The theorem at a stream that throws after one fragment. *)
Lemma sendToGeminiStream_error_witness :
  exists m,
    messages (fst (sendToGeminiStream (sample_stream [js "partial"] Throws)
                     (js "hi") initialState)) !! 0%nat = Some m /\
    text m = js "Error: Could not process your request.".
Proof.
  destruct (sendToGeminiStream_error_replaces_text
              (sample_stream [js "partial"] Throws) (js "hi") initialState
              eq_refl) as (m & H1 & _ & H3 & _).
  exists m. split; [exact H1 | exact H3].
Defined.

(** C6: however the stream ends, [sendToGeminiStream] ends normally with
    [isLoading] false and [currentStreamingMessage] null. *)
Theorem sendToGeminiStream_clears_on_exit
    (env : StreamEnv) (userMessage : jsstring) (st : MessageState) :
  isLoading (fst (sendToGeminiStream env userMessage st)) = false /\
  currentStreamingMessage (fst (sendToGeminiStream env userMessage st)) = None /\
  snd (sendToGeminiStream env userMessage st) = Resolved.
Proof.
  unfold sendToGeminiStream.
  destruct (streamChunks env userMessage _) as [st' c]. done.
Qed.

(** C10: the update made for a chunk and the update made on failure keep
    the length and order of the sequence, every message whose id is not the
    streaming target, and the id, sender, parentId, timestamp and isCode of
    the messages whose id is; the other properties of the state are kept
    too. *)
Theorem streaming_updates_change_only_target_text
    (state : MessageState) (textChunk : jsstring) :
  text_only_update state (appendChunk textChunk state) /\
  text_only_update state (replaceWithError state).
Proof.
  split.
  - rewrite appendChunk_retext. by apply retext_frame.
  - rewrite replaceWithError_retext. by apply retext_frame.
Qed.

(** ** addMessage *)

(** C3, as stated, fails: appending an AI message to the initial state
    leaves the tracker null. *)
Lemma addMessage_ai_not_tracked :
  ~ tracksAISender (sample_add "unused")
      {| p_id := Some (js "a1"); p_text := Some (js "hello");
         p_sender := Some ai; p_parentId := None; p_timestamp := None;
         p_isCode := None |}
      initialState.
Proof. unfold tracksAISender. simpl. intros [H _]. by specialize (H eq_refl). Qed.

(** C3, amended: [addMessage] sets [latestAIMessageId] to the id of the
    appended message when its sender is "user" and leaves it unchanged when
    the sender is "ai". *)
Theorem addMessage_tracks_user_sender
    (env : AddEnv) (messageData : PartialMessage) (st : MessageState) :
  let '(message, st') := addMessage env messageData st in
  messages st' = messages st ++ [message] /\
  sender message = default user (p_sender messageData) /\
  (sender message = user -> latestAIMessageId st' = Some (id message)) /\
  (sender message = ai -> latestAIMessageId st' = latestAIMessageId st).
Proof.
  simpl. repeat split; destruct (p_sender messageData) as [[]|]; simpl; congruence.
Qed.

(** The theorem at a user message and at an AI message appended after
    it. *)
Lemma addMessage_tracks_user_sender_witness :
  latestAIMessageId
    (snd (addMessage (sample_add "u1") emptyPartial initialState))
    = Some (js "u1") /\
  latestAIMessageId
    (snd (addMessage (sample_add "a1")
            {| p_id := None; p_text := Some (js "hello");
               p_sender := Some ai; p_parentId := None;
               p_timestamp := None; p_isCode := None |}
            (snd (addMessage (sample_add "u1") emptyPartial initialState))))
    = Some (js "u1").
Proof.
  split.
  - pose proof (addMessage_tracks_user_sender (sample_add "u1") emptyPartial
                  initialState) as H.
    simpl in H. destruct H as (_ & _ & Hu & _). exact (Hu eq_refl).
  - pose proof (addMessage_tracks_user_sender (sample_add "a1")
                  {| p_id := None; p_text := Some (js "hello");
                     p_sender := Some ai; p_parentId := None;
                     p_timestamp := None; p_isCode := None |}
                  (snd (addMessage (sample_add "u1") emptyPartial
                          initialState))) as H.
    simpl in H. destruct H as (_ & _ & _ & Ha). exact (Ha eq_refl).
Defined.

(** C7: [addMessage] with an empty partial record appends and returns a
    message with the generated id, sender "user", empty text, isCode false,
    parentId null and the clock reading of the call as its timestamp, which
    is at or after the time of invocation when the clock has not run
    backwards since. *)
Theorem addMessage_empty_partial
    (env : AddEnv) (st : MessageState) (invokedAt : Z) :
  (invokedAt <= new_Date env)%Z ->
  let '(message, st') := addMessage env emptyPartial st in
  messages st' = messages st ++ [message] /\
  id message = uuidv4 env /\
  sender message = user /\
  text message = [] /\
  isCode message = Some false /\
  parentId message = None /\
  timestamp message = new_Date env /\
  (invokedAt <= timestamp message)%Z.
Proof. intros H. simpl. repeat split; done. Qed.

(** The theorem at the initial state, with a clock one millisecond
    later than the invocation. *)
Lemma addMessage_empty_partial_witness :
  let '(message, st') := addMessage (sample_add "3f2c") emptyPartial initialState in
  messages st' = [message] /\ id message = js "3f2c" /\
  sender message = user /\ text message = [] /\
  isCode message = Some false /\ parentId message = None /\
  (1729999999999 <= timestamp message)%Z.
Proof.
  pose proof (addMessage_empty_partial (sample_add "3f2c") initialState
                1729999999999%Z ltac:(simpl; lia)) as H.
  simpl in *. destruct H as (H1 & H2 & H3 & H4 & H5 & H6 & _ & H8).
  repeat split; assumption.
Defined.

(** ** The request orchestrators *)

Lemma string_or_nil s : string_or (Some s) [] = s.
Proof. by destruct s. Qed.

Lemma sendToGeminiStream_resolves env userMessage st :
  sendToGeminiStream env userMessage st
  = (fst (sendToGeminiStream env userMessage st), Resolved).
Proof.
  unfold sendToGeminiStream.
  by destruct (streamChunks env userMessage _) as [st' c].
Qed.

(** A turn on a non-blank text: the user message is appended, then the
    streaming handler runs. *)
Lemma handleAIResponse_nonblank env userMessage st :
  ~ blank userMessage ->
  handleAIResponse env userMessage st
  = fst (sendToGeminiStream (stream_env env) userMessage
           (setIsLoading true
              (snd (addMessage (user_env env)
                      {| p_sender := Some user; p_text := Some userMessage;
                         p_isCode := Some false; p_id := None;
                         p_parentId := None; p_timestamp := None |} st)))).
Proof.
  intros Hnb. unfold handleAIResponse.
  destruct (negb (truthy (trim userMessage))) eqn:E.
  - by apply blank_falsy in E.
  - cbv zeta. cbn [addMessage fst snd].
    by rewrite sendToGeminiStream_resolves.
Qed.

Lemma handleAIResponse_blank env userMessage st :
  blank userMessage -> handleAIResponse env userMessage st = st.
Proof.
  intros Hb. unfold handleAIResponse.
  apply blank_falsy in Hb. by rewrite Hb.
Qed.

Lemma sendToGeminiStream_input env userMessage st :
  input (fst (sendToGeminiStream env userMessage st)) = input st.
Proof.
  unfold sendToGeminiStream, streamChunks. rewrite fold_appendChunk.
  by destruct (ending _).
Qed.

Lemma handleAIResponse_input env userMessage st :
  input (handleAIResponse env userMessage st) = input st.
Proof.
  destruct (decide (blank userMessage)) as [Hb|Hnb].
  - by rewrite handleAIResponse_blank.
  - rewrite handleAIResponse_nonblank by done.
    by rewrite sendToGeminiStream_input.
Qed.

Lemma handleAIResponse_messages env userMessage st :
  ~ blank userMessage ->
  let rs := generateContentStream (stream_env env) (instruction ++ userMessage) in
  let aiMessageId := Number_toString (Date_now (stream_env env) + 1) in
  let u := {| id := uuidv4 (user_env env); text := userMessage;
              sender := user; parentId := None;
              timestamp := new_Date (user_env env);
              isCode := Some false |} in
  messages (handleAIResponse env userMessage st)
  = retext (Some aiMessageId)
      (fun t => match ending rs with
                | Completes => t ++ concat (map beautifyPlainText (fragments rs))
                | Throws => streamError
                end)
      (messages st ++
         [ u;
           {| id := aiMessageId; text := []; sender := ai;
              timestamp := stream_new_Date (stream_env env);
              parentId := Some (id u); isCode := None |} ]).
Proof.
  intros Hnb rs aiMessageId u.
  rewrite handleAIResponse_nonblank by done.
  rewrite sendToGeminiStream_messages. subst rs aiMessageId u. simpl.
  replace (if truthy userMessage then userMessage else [])
    with userMessage by (by destruct userMessage).
  by rewrite <- app_assoc.
Qed.

(** C4, as stated, fails: after a first turn whose AI message has id "1001",
    the AI message of the next turn is not parented to "1001". *)
Lemma handleAIResponse_not_chained_to_previous_AI :
  latestAIMessageId after_first_turn = Some (js "1001") /\
  ~ chainsToPreviousAI (sample_turn "u2" 2000 [js "Again"]) (js "more")
      after_first_turn.
Proof.
  split; [reflexivity|].
  unfold chainsToPreviousAI. intros H.
  specialize (H _ ltac:(vm_compute; reflexivity)).
  vm_compute in H. discriminate H.
Qed.

(** C4, amended: on a non-blank text [handleAIResponse] appends a user
    message and then an AI message whose parentId is the id of that user
    message. *)
Theorem handleAIResponse_parents_AI_to_user_message
    (env : TurnEnv) (userMessage : jsstring) (st : MessageState) :
  ~ blank userMessage ->
  exists u a,
    messages (handleAIResponse env userMessage st)
      !! length (messages st) = Some u /\
    messages (handleAIResponse env userMessage st)
      !! S (length (messages st)) = Some a /\
    length (messages (handleAIResponse env userMessage st))
      = S (S (length (messages st))) /\
    sender u = user /\ id u = uuidv4 (user_env env) /\
    sender a = ai /\
    id a = Number_toString (Date_now (stream_env env) + 1) /\
    parentId a = Some (id u).
Proof.
  intros Hnb. rewrite handleAIResponse_messages by done.
  set (f := fun t : jsstring => _). set (cur := Some _).
  set (u := Build_Message (uuidv4 _) _ _ _ _ _).
  set (a := Build_Message _ _ ai _ _ _).
  exists (if decide (Some (id u) = cur) then with_text u (f (text u)) else u),
         (if decide (Some (id a) = cur) then with_text a (f (text a)) else a).
  split; [|split; [|split]].
  - apply retext_lookup.
    rewrite lookup_app_r by lia. by rewrite Nat.sub_diag.
  - apply retext_lookup.
    rewrite lookup_app_r by lia.
    by replace (S (length (messages st)) - length (messages st))%nat
      with 1%nat by lia.
  - rewrite retext_length, length_app. simpl. lia.
  - do 2 case_decide; done.
Qed.

(** The theorem at the second turn of a conversation. *)
Lemma handleAIResponse_parents_witness :
  ~ blank (js "more") /\
  exists u a,
    messages (handleAIResponse (sample_turn "u2" 2000 [js "Again"])
                (js "more") after_first_turn) !! 2%nat = Some u /\
    messages (handleAIResponse (sample_turn "u2" 2000 [js "Again"])
                (js "more") after_first_turn) !! 3%nat = Some a /\
    id u = js "u2" /\ parentId a = Some (js "u2").
Proof.
  assert (~ blank (js "more")) as Hnb.
  { intros H. apply blank_falsy in H. vm_compute in H. discriminate H. }
  split; [exact Hnb|].
  destruct (handleAIResponse_parents_AI_to_user_message
              (sample_turn "u2" 2000 [js "Again"]) (js "more")
              after_first_turn Hnb)
    as (u & a & Hu & Ha & _ & _ & Hid & _ & _ & Hp).
  exists u, a. repeat split; [exact Hu | exact Ha | exact Hid |].
  rewrite Hp. f_equal. exact Hid.
Defined.

(** C8: on an input that is empty or made of white space only,
    [sendMessage] changes nothing; otherwise it clears the input and hands
    the input text, as it was, to [handleAIResponse], which appends a user
    message carrying that text. *)
Theorem sendMessage_blank_guard (env : TurnEnv) (st : MessageState) :
  (blank (input st) -> sendMessage env st = st) /\
  (~ blank (input st) ->
   sendMessage env st = handleAIResponse env (input st) (setInput [] st) /\
   input (sendMessage env st) = [] /\
   exists u,
     messages (sendMessage env st) !! length (messages st) = Some u /\
     sender u = user /\ id u = uuidv4 (user_env env) /\
     (id u <> Number_toString (Date_now (stream_env env) + 1) ->
      text u = input st)).
Proof.
  split.
  - intros Hb. unfold sendMessage. apply blank_falsy in Hb. by rewrite Hb.
  - intros Hnb.
    assert (sendMessage env st
            = handleAIResponse env (input st) (setInput [] st)) as E.
    { unfold sendMessage. destruct (negb _) eqn:E; [|done].
      by apply blank_falsy in E. }
    split; [exact E|]. rewrite E. split.
    + by rewrite handleAIResponse_input.
    + rewrite handleAIResponse_messages by done.
      eexists. split.
      * apply retext_lookup. cbn [setInput messages].
        rewrite lookup_app_r by lia. by rewrite Nat.sub_diag.
      * simpl. case_decide as Hd; simpl; [|done].
        split; [done|]. split; [done|]. intros Hne. congruence.
Qed.

(** The theorem at an input of three spaces and at the input " hi". *)
Lemma sendMessage_blank_guard_witness :
  sendMessage (sample_turn "u1" 1000 [js "Hello"])
    (setInput (js "   ") initialState)
    = setInput (js "   ") initialState /\
  input (sendMessage (sample_turn "u1" 1000 [js "Hello"])
           (setInput (js " hi") initialState)) = [] /\
  exists u,
    messages (sendMessage (sample_turn "u1" 1000 [js "Hello"])
                (setInput (js " hi") initialState)) !! 0%nat = Some u /\
    text u = js " hi".
Proof.
  split.
  - apply (proj1 (sendMessage_blank_guard (sample_turn "u1" 1000 [js "Hello"])
                    (setInput (js "   ") initialState))).
    apply blank_falsy. reflexivity.
  - destruct (proj2 (sendMessage_blank_guard
                       (sample_turn "u1" 1000 [js "Hello"])
                       (setInput (js " hi") initialState)))
      as (_ & Hin & u & Hu & _ & Hid & Ht).
    + intros H. apply blank_falsy in H. vm_compute in H. discriminate H.
    + split; [exact Hin|]. exists u. split; [exact Hu|].
      apply Ht. rewrite Hid. intros E. vm_compute in E. discriminate E.
Defined.

(** ** Uniqueness of ids *)

Lemma retext_ids cur f msgs : map id (retext cur f msgs) = map id msgs.
Proof.
  unfold retext. rewrite map_map. apply map_ext. intros m.
  by case_decide.
Qed.

Lemma step_ids st op : ids (step st op) = ids st ++ [assignedId op].
Proof.
  unfold ids. destruct op as [env messageData|env userMessage];
    cbn [step assignedId].
  - simpl. by rewrite map_app.
  - rewrite sendToGeminiStream_messages, retext_ids. by rewrite map_app.
Qed.

(** C9, as stated, fails: two [addMessage] calls that are given the id "a"
    leave two messages with that id. *)
Lemma duplicate_ids_reachable :
  ids (run duplicate_id_run initialState) = [js "a"; js "a"] /\
  ~ NoDup (ids (run duplicate_id_run initialState)).
Proof.
  split; [reflexivity|].
  change (ids (run duplicate_id_run initialState)) with [js "a"; js "a"].
  inversion 1 as [|x l Hnotin _]. apply Hnotin. by left.
Qed.

(** C9, amended: over any sequence of [addMessage] and
    [sendToGeminiStream] calls in which each call assigns an id that the
    sequence does not hold yet (the id given by the caller, else the
    generated one; the clock-derived id of the streaming handler), the ids
    of the sequence stay pairwise distinct. *)
Theorem fresh_ids_stay_distinct (ops : list Op) (st : MessageState) :
  NoDup (ids st) -> assignsFreshIds ops st -> NoDup (ids (run ops st)).
Proof.
  revert st. induction ops as [|op ops IH]; intros st Hnd Hfresh; [done|].
  destruct Hfresh as [Hnew Hrest]. simpl. apply IH; [|done].
  rewrite step_ids. apply list.NoDup_app. split; [done|]. split.
  - intros x Hx Hin. apply list_elem_of_singleton in Hin. by subst.
  - apply NoDup_singleton.
Qed.

(** The theorem at a run of an [addMessage] and a streamed reply. *)
Lemma fresh_ids_witness :
  NoDup (ids (run fresh_id_run initialState)) /\
  ids (run fresh_id_run initialState) = [js "u1"; js "1730000000001"].
Proof.
  split; [|reflexivity].
  apply (fresh_ids_stay_distinct fresh_id_run initialState).
  - apply NoDup_nil_2.
  - simpl. split; [apply not_elem_of_nil|]. split; [|exact I].
    apply (bool_decide_unpack _). vm_compute. exact I.
Defined.

(** ** The tree builder *)

Lemma initNodes_snoc l x :
  initNodes (l ++ [x])
  = <[id x := {| message := x; replies := [] |}]> (initNodes l).
Proof. unfold initNodes. by rewrite fold_left_app. Qed.

Lemma initNodes_is_Some l k :
  is_Some (initNodes l !! k) <-> k ∈ map id l.
Proof.
  induction l as [|x l IH] using rev_ind.
  - unfold initNodes; simpl. rewrite lookup_empty. split.
    + by intros [? ?].
    + by intros ?%elem_of_nil.
  - rewrite initNodes_snoc, lookup_insert_is_Some, map_app, elem_of_app.
    simpl. rewrite list_elem_of_singleton, IH.
    destruct (decide (id x = k)) as [E|E]; split.
    + intros _. by right.
    + intros _. by left.
    + intros [?|[_ ?]]; [done|by left].
    + intros [?|?]; [by right|congruence].
Qed.

Lemma initNodes_replies l k n :
  initNodes l !! k = Some n -> replies n = [].
Proof.
  revert n. induction l as [|x l IH] using rev_ind; intros n.
  - unfold initNodes; simpl. by rewrite lookup_empty.
  - rewrite initNodes_snoc, lookup_insert_Some.
    intros [[_ <-]|[_ H]]; [done|by apply IH].
Qed.

(** With distinct ids, the node stored under the id of a message is the
    node made for that message. *)
Lemma initNodes_lookup l m :
  NoDup (map id l) -> m ∈ l ->
  initNodes l !! id m = Some {| message := m; replies := [] |}.
Proof.
  induction l as [|x l IH] using rev_ind; intros Hnd Hm.
  - by apply elem_of_nil in Hm.
  - rewrite map_app in Hnd. apply list.NoDup_app in Hnd as (Hnd & Hx & _).
    rewrite initNodes_snoc. apply elem_of_app in Hm as [Hm|Hm].
    + rewrite lookup_insert_ne; [by apply IH|].
      intros E. apply (Hx (id m)).
      * by apply list_elem_of_fmap_2.
      * simpl. rewrite E. apply list_elem_of_here.
    + apply list_elem_of_singleton in Hm as ->. by rewrite lookup_insert_eq.
Qed.

Lemma resolvedParent_dom (nm nm' : gmap jsstring MessageNode) m :
  (forall k, is_Some (nm !! k) <-> is_Some (nm' !! k)) ->
  resolvedParent nm m = resolvedParent nm' m.
Proof.
  intros H. unfold resolvedParent. destruct (parentId m) as [p|]; [|done].
  by rewrite (bool_decide_ext _ _ (H p)).
Qed.

Lemma resolvedParent_is_Some (nm : gmap jsstring MessageNode) m p :
  resolvedParent nm m = Some p -> is_Some (nm !! p).
Proof.
  unfold resolvedParent. destruct (parentId m) as [q|]; [|done].
  destruct (truthy q); simpl; [|done].
  case_bool_decide; [|done]. by intros [= <-].
Qed.

Lemma add_replies_nil n : add_replies [] n = n.
Proof. destruct n. unfold add_replies; simpl. by rewrite app_nil_r. Qed.

(** The second loop, in closed form: the messages without a resolved
    parent are pushed to [roots], those whose parent resolves to [k] to the
    [replies] of the node under [k], each in the order of the sequence. *)
Lemma fold_linkNode (nm0 : gmap jsstring MessageNode) l :
  forall roots (nm : gmap jsstring MessageNode),
    (forall k, is_Some (nm !! k) <-> is_Some (nm0 !! k)) ->
    fst (fold_left linkNode l (roots, nm))
    = roots ++ map id (filter (fun m => resolvedParent nm0 m = None) l) /\
    forall k,
      snd (fold_left linkNode l (roots, nm)) !! k
      = add_replies
          (map id (filter (fun m => resolvedParent nm0 m = Some k) l))
        <$> nm !! k.
Proof.
  induction l as [|m l IH]; intros roots nm Hdom.
  - simpl. split; [by rewrite app_nil_r|]. intros k.
    destruct (nm !! k) as [n|]; simpl; [|done]. by rewrite add_replies_nil.
  - cbn [fold_left linkNode].
    rewrite (resolvedParent_dom nm nm0 m Hdom).
    destruct (resolvedParent nm0 m) as [p|] eqn:E.
    + destruct (IH roots (alter (push_reply (id m)) p nm)) as [IH1 IH2].
      { intros k. rewrite <- Hdom. apply lookup_alter_is_Some. }
      split.
      * rewrite IH1. rewrite filter_cons_False; [done|]. by rewrite E.
      * intros k. rewrite IH2. destruct (decide (p = k)) as [<-|Hne].
        -- rewrite lookup_alter_eq, filter_cons_True by done.
           destruct (nm !! p) as [n|]; simpl; [|done].
           unfold add_replies, push_reply; simpl. by rewrite <- app_assoc.
        -- rewrite lookup_alter_ne by done.
           rewrite filter_cons_False; [done|]. rewrite E. congruence.
    + destruct (IH (roots ++ [id m]) nm Hdom) as [IH1 IH2]. split.
      * rewrite IH1, filter_cons_True by done. by rewrite <- app_assoc.
      * intros k. rewrite IH2. rewrite filter_cons_False; [done|].
        by rewrite E.
Qed.

Lemma resolvedParent_expected msgs m :
  expectedPosition msgs m
  = match resolvedParent (initNodes msgs) m with
    | Some p => InRepliesOf p
    | None => AtRoot
    end.
Proof.
  unfold expectedPosition, resolvedParent.
  destruct (parentId m) as [p|]; [|done].
  rewrite (bool_decide_ext _ _ (initNodes_is_Some msgs p)).
  by destruct (truthy p && _).
Qed.

Lemma resolvedParent_None_iff msgs m :
  resolvedParent (initNodes msgs) m = None <-> expectedPosition msgs m = AtRoot.
Proof.
  rewrite resolvedParent_expected.
  destruct (resolvedParent _ m); split; congruence.
Qed.

Lemma resolvedParent_Some_iff msgs m p :
  resolvedParent (initNodes msgs) m = Some p
  <-> expectedPosition msgs m = InRepliesOf p.
Proof.
  rewrite resolvedParent_expected.
  destruct (resolvedParent _ m); split; congruence.
Qed.

(** The arrays of the result, for every input. *)
Lemma buildmessageTree_roots msgs :
  fst (buildmessageTree msgs)
  = map id (filter (fun m => expectedPosition msgs m = AtRoot) msgs).
Proof.
  unfold buildmessageTree.
  destruct (fold_linkNode (initNodes msgs) msgs [] (initNodes msgs)) as [H _];
    [done|].
  rewrite H. simpl. f_equal. apply list_filter_iff.
  intros m. apply resolvedParent_None_iff.
Qed.

Lemma buildmessageTree_node msgs k :
  snd (buildmessageTree msgs) !! k
  = add_replies
      (map id (filter (fun m => expectedPosition msgs m = InRepliesOf k) msgs))
    <$> initNodes msgs !! k.
Proof.
  unfold buildmessageTree.
  destruct (fold_linkNode (initNodes msgs) msgs [] (initNodes msgs)) as [_ H];
    [done|].
  rewrite H. do 3 f_equal. apply list_filter_iff.
  intros m. apply resolvedParent_Some_iff.
Qed.

Lemma buildmessageTree_replies msgs k n :
  snd (buildmessageTree msgs) !! k = Some n ->
  replies n
  = map id (filter (fun m => expectedPosition msgs m = InRepliesOf k) msgs).
Proof.
  rewrite buildmessageTree_node.
  destruct (initNodes msgs !! k) as [n0|] eqn:E; simpl; [|done].
  intros [= <-]. simpl. by rewrite (initNodes_replies _ _ _ E).
Qed.

Lemma count_absent k l : k ∉ l -> count k l = 0%nat.
Proof.
  induction l as [|x l IH]; intros H; simpl; [done|].
  apply not_elem_of_cons in H as [Hne H].
  rewrite decide_False by done. by rewrite IH.
Qed.

Lemma count_filtered (Q : Message -> Prop) `{!forall m, Decision (Q m)} l m :
  NoDup (map id l) -> m ∈ l ->
  count (id m) (map id (filter Q l)) = if decide (Q m) then 1%nat else 0%nat.
Proof.
  induction l as [|x l IH]; intros Hnd Hm; [by apply elem_of_nil in Hm|].
  simpl in Hnd. apply list.NoDup_cons in Hnd as [Hx Hnd].
  assert (forall y, y ∈ l -> id y <> id x) as Hother.
  { intros y Hy E. apply Hx. rewrite <- E. by apply list_elem_of_fmap_2. }
  assert (id x ∉ map id (filter Q l)) as Hxf.
  { intros Hin. apply list_elem_of_fmap in Hin as (y & E & Hy).
    apply list_elem_of_filter in Hy as [_ Hy]. by apply (Hother y). }
  apply elem_of_cons in Hm as [->|Hm].
  - destruct (decide (Q x)) as [HQ|HQ].
    + rewrite filter_cons_True by done. simpl.
      rewrite decide_True by done. by rewrite count_absent.
    + rewrite filter_cons_False by done. by rewrite count_absent.
  - specialize (IH Hnd Hm). destruct (decide (Q x)) as [HQ|HQ].
    + rewrite filter_cons_True by done. simpl.
      rewrite decide_False; [done|]. intros E. by apply (Hother m).
    + by rewrite filter_cons_False.
Qed.

(** C1, as stated, fails: of two messages with the same id, the node of
    the second is pushed to [roots] twice and the first has no node. *)
Lemma duplicate_id_node_placed_twice :
  readForest 3 (buildmessageTree [twin_first; twin_second])
    = [TreeNode twin_second []; TreeNode twin_second []] /\
  ~ placedExactlyOnce [twin_first; twin_second].
Proof.
  split; [by vm_compute|].
  intros H. destruct (H twin_second) as [_ Hocc].
  { apply list_elem_of_further, list_elem_of_here. }
  specialize (Hocc AtRoot). vm_compute in Hocc. discriminate Hocc.
Qed.

(** C1, amended: for every sequence of messages with pairwise distinct
    ids, [buildmessageTree] gives every message its own node and places it
    in exactly one position: in the replies of the node of its parentId
    when parentId is set (a non-empty string) and is the id of a message of
    the sequence, else in the root list; each list holds its nodes in the
    order of the sequence. *)
Theorem buildmessageTree_places_each_node_once (msgs : list Message) :
  NoDup (map id msgs) ->
  placedExactlyOnce msgs /\
  fst (buildmessageTree msgs)
    = map id (filter (fun m => expectedPosition msgs m = AtRoot) msgs) /\
  (forall p n,
     snd (buildmessageTree msgs) !! p = Some n ->
     replies n
     = map id (filter (fun m => expectedPosition msgs m = InRepliesOf p) msgs)).
Proof.
  intros Hnd. split; [|split].
  - intros m Hm. split.
    + rewrite buildmessageTree_node, (initNodes_lookup msgs m Hnd Hm).
      simpl. eexists. split; [reflexivity|done].
    + intros [|p]; unfold occurrences.
      * rewrite buildmessageTree_roots, count_filtered by done.
        destruct (decide (expectedPosition msgs m = AtRoot)) as [E|E].
        -- by rewrite decide_True.
        -- by rewrite decide_False.
      * destruct (snd (buildmessageTree msgs) !! p) as [n|] eqn:En.
        -- rewrite (buildmessageTree_replies _ _ _ En), count_filtered by done.
           destruct (decide (expectedPosition msgs m = InRepliesOf p)) as [E|E].
           ++ by rewrite decide_True.
           ++ by rewrite decide_False.
        -- rewrite decide_False; [done|]. intros E. symmetry in E.
           apply resolvedParent_Some_iff, resolvedParent_is_Some in E.
           rewrite buildmessageTree_node in En.
           destruct E as [n0 E]. by rewrite E in En.
  - apply buildmessageTree_roots.
  - apply buildmessageTree_replies.
Qed.

(** The theorem at a thread of three messages. *)
Lemma buildmessageTree_thread_witness :
  NoDup (map id thread) /\
  fst (buildmessageTree thread) = [js "m1"; js "m3"] /\
  readForest 3 (buildmessageTree thread)
    = [ TreeNode {| id := js "m1"; text := js "hi"; sender := user;
                    parentId := None; timestamp := 1000;
                    isCode := Some false |}
          [ TreeNode {| id := js "m2"; text := js "hello"; sender := ai;
                        parentId := Some (js "m1"); timestamp := 1001;
                        isCode := None |} [] ];
        TreeNode {| id := js "m3"; text := js "lost"; sender := user;
                    parentId := Some (js "gone"); timestamp := 1002;
                    isCode := Some false |} [] ].
Proof.
  assert (NoDup (map id thread)) as Hnd.
  { apply (bool_decide_unpack _). vm_compute. exact I. }
  split; [exact Hnd|].
  destruct (buildmessageTree_places_each_node_once thread Hnd) as (_ & Hr & _).
  split; [rewrite Hr; by vm_compute | by vm_compute].
Defined.

(** * Further properties of the store *)

(** ** The streaming handler as a whole *)

(** The state [sendToGeminiStream] ends in, in closed form. *)
Lemma sendToGeminiStream_state env userMessage st :
  let rs := generateContentStream env (instruction ++ userMessage) in
  let aiMessageId := Number_toString (Date_now env + 1) in
  fst (sendToGeminiStream env userMessage st)
  = {| messages :=
         retext (Some aiMessageId)
           (fun t => match ending rs with
                     | Completes =>
                         t ++ concat (map beautifyPlainText (fragments rs))
                     | Throws => streamError
                     end)
           (messages st ++
              [ {| id := aiMessageId; text := []; sender := ai;
                   timestamp := stream_new_Date env;
                   parentId := latestAIMessageId st; isCode := None |} ]);
       input := input st; showModal := showModal st;
       isFocused := isFocused st; isLoading := false;
       currentStreamingMessage := None;
       latestAIMessageId := Some aiMessageId |}.
Proof.
  intros rs aiMessageId. unfold sendToGeminiStream, streamChunks.
  fold rs. fold aiMessageId. rewrite fold_appendChunk.
  destruct (ending rs); simpl; [done|].
  unfold clearStreaming; simpl. f_equal.
  apply (retext_retext (Some aiMessageId) (fun _ => streamError)).
Qed.

(** X1: a call of [sendToGeminiStream] adds one message, leaves every
    earlier message whose id differs from the new id as it was, keeps
    [input], [showModal] and [isFocused], and sets the tracker to the new
    id. *)
Theorem sendToGeminiStream_frame
    (env : StreamEnv) (userMessage : jsstring) (st : MessageState) :
  let st' := fst (sendToGeminiStream env userMessage st) in
  let aiMessageId := Number_toString (Date_now env + 1) in
  length (messages st') = S (length (messages st)) /\
  (forall i m, messages st !! i = Some m -> id m <> aiMessageId ->
               messages st' !! i = Some m) /\
  input st' = input st /\ showModal st' = showModal st /\
  isFocused st' = isFocused st /\
  latestAIMessageId st' = Some aiMessageId.
Proof.
  intros st' aiMessageId. subst st'. rewrite sendToGeminiStream_state.
  fold aiMessageId. simpl. split; [|split; [|done]].
  - rewrite retext_length, length_app. simpl. lia.
  - intros i m Hi Hne. erewrite retext_lookup.
    + rewrite decide_False; [done|]. congruence.
    + by apply lookup_app_l_Some.
Qed.

(** X2: a message that is already in the sequence under the id the
    streaming call assigns receives the same text updates as the new
    message: the cleaned fragments are appended to its text, or its text is
    replaced by the error string. *)
Theorem sendToGeminiStream_id_collision
    (env : StreamEnv) (userMessage : jsstring) (st : MessageState)
    (i : nat) (m : Message) :
  messages st !! i = Some m ->
  id m = Number_toString (Date_now env + 1) ->
  let rs := generateContentStream env (instruction ++ userMessage) in
  messages (fst (sendToGeminiStream env userMessage st)) !! i
  = Some (with_text m
            match ending rs with
            | Completes => text m ++ concat (map beautifyPlainText (fragments rs))
            | Throws => streamError
            end).
Proof.
  intros Hi Hid rs. rewrite sendToGeminiStream_messages. fold rs.
  erewrite retext_lookup; [|by apply lookup_app_l_Some].
  rewrite decide_True by congruence. by destruct (ending rs).
Qed.

(** The theorem at a state that holds a message with the colliding id. *)
Lemma sendToGeminiStream_id_collision_witness :
  exists m,
    messages (fst (sendToGeminiStream (sample_stream [js "*new*"] Completes)
                     (js "hi") collision_state)) !! 0%nat = Some m /\
    text m = js "old new" /\ sender m = user.
Proof.
  eexists. split.
  - apply (sendToGeminiStream_id_collision
             (sample_stream [js "*new*"] Completes) (js "hi") collision_state
             0%nat); reflexivity.
  - split; reflexivity.
Defined.

(** X3: of two [sendToGeminiStream] calls in a row, the message of the
    second is parented to the message of the first. *)
Theorem consecutive_streams_chain
    (env1 env2 : StreamEnv) (u1 u2 : jsstring) (st : MessageState) :
  exists m2,
    messages (fst (sendToGeminiStream env2 u2
                     (fst (sendToGeminiStream env1 u1 st))))
      !! S (length (messages st)) = Some m2 /\
    id m2 = Number_toString (Date_now env2 + 1) /\
    parentId m2 = Some (Number_toString (Date_now env1 + 1)).
Proof.
  pose proof (sendToGeminiStream_new_message env2 u2
                (fst (sendToGeminiStream env1 u1 st))) as H.
  cbv zeta in H.
  assert (length (messages (fst (sendToGeminiStream env1 u1 st)))
          = S (length (messages st))) as Hlen.
  { rewrite sendToGeminiStream_messages, retext_length, length_app.
    simpl. lia. }
  rewrite Hlen in H. rewrite (sendToGeminiStream_state env1 u1 st) in H at 2.
  eexists. split; [exact H|]. done.
Qed.

(** ** The ids of the streaming handler *)

Lemma js_inj s1 s2 : js s1 = js s2 -> s1 = s2.
Proof.
  unfold js. revert s2. induction s1 as [|a s1 IH]; intros [|b s2]; simpl;
    try done.
  intros [= Hab Hs]. f_equal; [|by apply IH].
  by rewrite <- (ascii_N_embedding a), Hab, ascii_N_embedding.
Qed.

(** The decimal string of a number determines the number. *)
Lemma Number_toString_inj n m :
  Number_toString n = Number_toString m -> n = m.
Proof.
  unfold Number_toString. intros E%js_inj.
  apply (f_equal NilZero.int_of_string) in E.
  assert (forall z, NilZero.int_of_string (NilZero.string_of_int (Z.to_int z))
                    = Some (Z.to_int z)) as Hisi.
  { intros [|p|p]; [reflexivity| |]; apply NilZero.isi; try discriminate;
      simpl; intros [= E']; by apply DecimalPos.Unsigned.to_uint_nonnil in E'. }
  rewrite !Hisi in E. injection E as E. by apply DecimalZ.to_int_inj.
Qed.

(** X4: two [sendToGeminiStream] calls in a row, started from a sequence
    with distinct ids that holds neither of their ids, leave the ids
    distinct exactly when their [Date.now()] readings differ; two calls
    within the same millisecond give two messages the same id. *)
Theorem streams_distinct_iff_clock_differs
    (env1 env2 : StreamEnv) (u1 u2 : jsstring) (st : MessageState) :
  NoDup (ids st) ->
  Number_toString (Date_now env1 + 1) ∉ ids st ->
  Number_toString (Date_now env2 + 1) ∉ ids st ->
  NoDup (ids (run [OpSendToGeminiStream env1 u1; OpSendToGeminiStream env2 u2]
                st))
  <-> Date_now env1 <> Date_now env2.
Proof.
  intros Hnd H1 H2. unfold run. cbn [fold_left]. rewrite !step_ids.
  cbn [assignedId]. rewrite <- app_assoc. cbn [app].
  rewrite list.NoDup_app. split.
  - intros (_ & _ & Hpair) E. rewrite E in Hpair.
    apply list.NoDup_cons in Hpair as [Hin _]. apply Hin, list_elem_of_here.
  - intros Hne. split; [done|]. split.
    + intros x Hx Hin. apply elem_of_cons in Hin as [->|Hin]; [done|].
      apply list_elem_of_singleton in Hin as ->. done.
    + apply list.NoDup_cons. split; [|apply NoDup_singleton].
      intros Hin%list_elem_of_singleton. apply Number_toString_inj in Hin.
      apply Hne. lia.
Qed.

(** The theorem at two streams started in the same millisecond. *)
Lemma streams_same_millisecond_witness :
  ~ NoDup (ids (run [OpSendToGeminiStream (sample_stream [js "a"] Completes)
                       (js "one");
                     OpSendToGeminiStream (sample_stream [js "b"] Completes)
                       (js "two")]
                  initialState)).
Proof.
  intros H.
  apply (streams_distinct_iff_clock_differs
           (sample_stream [js "a"] Completes)
           (sample_stream [js "b"] Completes)
           (js "one") (js "two") initialState) in H.
  - by apply H.
  - apply NoDup_nil_2.
  - apply not_elem_of_nil.
  - apply not_elem_of_nil.
Defined.

(** ** replyToMessage and the blank guards *)

Lemma replyToMessage_nonblank env parent t st :
  ~ blank t ->
  replyToMessage env parent t st
  = fst (sendToGeminiStream (stream_env env) (js "Reply to message: " ++ t)
           (setIsLoading true
              (snd (addMessage (user_env env)
                      {| p_sender := Some user; p_text := Some t;
                         p_isCode := Some false; p_parentId := Some parent;
                         p_id := None; p_timestamp := None |} st)))).
Proof.
  intros Hnb. unfold replyToMessage.
  destruct (negb (truthy (trim t))) eqn:E.
  - by apply blank_falsy in E.
  - cbv zeta. cbn [addMessage fst snd].
    by rewrite sendToGeminiStream_resolves.
Qed.

Lemma replyToMessage_blank env parent t st :
  blank t -> replyToMessage env parent t st = st.
Proof.
  intros Hb. unfold replyToMessage. apply blank_falsy in Hb. by rewrite Hb.
Qed.

(** X5: on a non-blank text [replyToMessage] appends exactly two messages:
    a user message that carries the text and has the given parent as its
    parentId (null when the given parent is the empty string), and an AI
    message parented to that user message, whose text comes from the stream
    requested with the instruction followed by "Reply to message: " and the
    text.  The fallback message of the [catch] block is never appended. *)
Theorem replyToMessage_appends_reply_pair
    (env : TurnEnv) (parent t : jsstring) (st : MessageState) :
  ~ blank t ->
  let rs := generateContentStream (stream_env env)
              (instruction ++ js "Reply to message: " ++ t) in
  let aiMessageId := Number_toString (Date_now (stream_env env) + 1) in
  let outcome := match ending rs with
                 | Completes => concat (map beautifyPlainText (fragments rs))
                 | Throws => streamError
                 end in
  exists u a,
    length (messages (replyToMessage env parent t st))
      = S (S (length (messages st))) /\
    messages (replyToMessage env parent t st) !! length (messages st)
      = Some u /\
    messages (replyToMessage env parent t st) !! S (length (messages st))
      = Some a /\
    id u = uuidv4 (user_env env) /\ sender u = user /\
    parentId u = (if truthy parent then Some parent else None) /\
    (id u <> aiMessageId -> text u = t) /\
    id a = aiMessageId /\ sender a = ai /\
    parentId a = Some (id u) /\ text a = outcome.
Proof.
  intros Hnb rs aiMessageId outcome.
  rewrite replyToMessage_nonblank by done.
  rewrite sendToGeminiStream_messages. fold rs. fold aiMessageId.
  cbn [addMessage snd setIsLoading messages latestAIMessageId].
  set (f := fun t0 : jsstring => _).
  set (u := Build_Message _ _ _ _ _ _).
  set (a := Build_Message aiMessageId _ _ _ _ _).
  exists (if decide (Some (id u) = Some aiMessageId)
          then with_text u (f (text u)) else u),
         (if decide (Some (id a) = Some aiMessageId)
          then with_text a (f (text a)) else a).
  split; [|split; [|split]].
  - rewrite retext_length, !length_app. simpl. lia.
  - apply retext_lookup. rewrite lookup_app_l.
    + rewrite lookup_app_r by lia. by rewrite Nat.sub_diag.
    + rewrite length_app. simpl. lia.
  - apply retext_lookup. rewrite lookup_app_r.
    + rewrite length_app. simpl.
      by replace (S (length (messages st)) - (length (messages st) + 1))%nat
        with 0%nat by lia.
    + rewrite length_app. simpl. lia.
  - assert (text u = t) as Htu.
    { subst u. simpl. by destruct t. }
    rewrite (decide_True (P := Some (id a) = Some aiMessageId)) by done.
    assert (f [] = outcome) as Hf.
    { subst f outcome. simpl. by destruct (ending rs). }
    case_decide as Hd; simpl; rewrite ?Hf; repeat split; try done.
    intros Hne. by injection Hd.
Qed.

(** The theorem at a reply to the message "1001" of the first turn. *)
Lemma replyToMessage_witness :
  exists u a,
    messages (replyToMessage (sample_turn "u2" 2000 [js "**Sure**"])
                (js "1001") (js "why?") after_first_turn) !! 2%nat = Some u /\
    messages (replyToMessage (sample_turn "u2" 2000 [js "**Sure**"])
                (js "1001") (js "why?") after_first_turn) !! 3%nat = Some a /\
    parentId u = Some (js "1001") /\ text u = js "why?" /\
    parentId a = Some (js "u2") /\ text a = js "Sure".
Proof.
  assert (~ blank (js "why?")) as Hnb.
  { intros H. apply blank_falsy in H. vm_compute in H. discriminate H. }
  destruct (replyToMessage_appends_reply_pair
              (sample_turn "u2" 2000 [js "**Sure**"]) (js "1001") (js "why?")
              after_first_turn Hnb)
    as (u & a & _ & Hu & Ha & Hid & _ & Hp & Ht & _ & _ & Hpa & Hta).
  exists u, a. split; [exact Hu|]. split; [exact Ha|].
  split; [exact Hp|]. split.
  - apply Ht. rewrite Hid. intros E. vm_compute in E. discriminate E.
  - split; [|exact Hta]. rewrite Hpa. f_equal. exact Hid.
Defined.

(** X6: [handleAIResponse] and [replyToMessage] change nothing when the
    text is empty or made of white space and line terminators only. *)
Theorem blank_text_is_ignored
    (env : TurnEnv) (parent t : jsstring) (st : MessageState) :
  blank t ->
  handleAIResponse env t st = st /\ replyToMessage env parent t st = st.
Proof.
  intros Hb. split;
    [by apply handleAIResponse_blank | by apply replyToMessage_blank].
Qed.

(** The theorem at a text of a tab, a line feed and a no-break space. *)
Lemma blank_text_is_ignored_witness :
  handleAIResponse (sample_turn "u2" 2000 [js "x"]) [9; 10; 160]
    after_first_turn = after_first_turn /\
  replyToMessage (sample_turn "u2" 2000 [js "x"]) (js "1001") [9; 10; 160]
    after_first_turn = after_first_turn.
Proof.
  apply (blank_text_is_ignored (sample_turn "u2" 2000 [js "x"]) (js "1001")
           [9; 10; 160] after_first_turn).
  apply blank_falsy. reflexivity.
Defined.

(** X7: a second [sendMessage] right after a first changes nothing,
    whatever the input was: the first call has either done nothing on a
    blank input or cleared the input. *)
Theorem sendMessage_twice (env1 env2 : TurnEnv) (st : MessageState) :
  sendMessage env2 (sendMessage env1 st) = sendMessage env1 st.
Proof.
  assert (forall env st', blank (input st') -> sendMessage env st' = st')
    as Hblank.
  { intros env st' Hb. unfold sendMessage.
    apply blank_falsy in Hb. by rewrite Hb. }
  apply Hblank. destruct (decide (blank (input st))) as [Hin|Hin].
  - by rewrite Hblank.
  - unfold sendMessage. destruct (negb _) eqn:E.
    + by apply blank_falsy in E.
    + cbv zeta. rewrite handleAIResponse_input. constructor.
Qed.

(** ** Invariants over sequences of calls *)

Lemma sendMessage_unfold env st :
  sendMessage env st
  = if negb (truthy (trim (input st))) then st
    else handleAIResponse env (input st) (setInput [] st).
Proof. reflexivity. Qed.

(** A relation between states that holds across the three kinds of
    primitive update (appending a message, setting a flag or the input,
    running the streaming handler) holds across every call and every
    sequence of calls. *)
Section CallInduction.

Variable R : MessageState -> MessageState -> Prop.
Hypothesis R_refl : forall st, R st st.
Hypothesis R_trans : forall st1 st2 st3, R st1 st2 -> R st2 st3 -> R st1 st3.
Hypothesis R_addMessage :
  forall env messageData st, R st (snd (addMessage env messageData st)).
Hypothesis R_setInput : forall t st, R st (setInput t st).
Hypothesis R_setShowModal : forall v st, R st (setShowModal v st).
Hypothesis R_setIsFocused : forall v st, R st (setIsFocused v st).
Hypothesis R_setIsLoading : forall v st, R st (setIsLoading v st).
Hypothesis R_stream :
  forall env userMessage st,
    R st (fst (sendToGeminiStream env userMessage st)).

Lemma handleAIResponse_related env userMessage st :
  R st (handleAIResponse env userMessage st).
Proof.
  destruct (decide (blank userMessage)) as [Hb|Hnb].
  - rewrite handleAIResponse_blank by done. apply R_refl.
  - rewrite handleAIResponse_nonblank by done.
    eapply R_trans; [apply R_addMessage|].
    eapply R_trans; [apply R_setIsLoading|]. apply R_stream.
Qed.

Lemma replyToMessage_related env parent t st :
  R st (replyToMessage env parent t st).
Proof.
  destruct (decide (blank t)) as [Hb|Hnb].
  - rewrite replyToMessage_blank by done. apply R_refl.
  - rewrite replyToMessage_nonblank by done.
    eapply R_trans; [apply R_addMessage|].
    eapply R_trans; [apply R_setIsLoading|]. apply R_stream.
Qed.

Lemma sendMessage_related env st : R st (sendMessage env st).
Proof.
  rewrite sendMessage_unfold. destruct (negb _); [apply R_refl|].
  eapply R_trans; [apply R_setInput|]. apply handleAIResponse_related.
Qed.

Lemma call_related st c : R st (call st c).
Proof.
  destruct c; cbn [call]; auto using handleAIResponse_related,
    replyToMessage_related, sendMessage_related.
Qed.

Lemma calls_related cs st : R st (calls cs st).
Proof.
  revert st. induction cs as [|c cs IH]; intros st; [apply R_refl|].
  eapply R_trans; [apply (call_related st c)|]. apply IH.
Qed.

End CallInduction.

Lemma retext_headers cur f msgs :
  map header (retext cur f msgs) = map header msgs.
Proof.
  unfold retext. rewrite map_map. apply map_ext. intros m. by case_decide.
Qed.

(** X8: no call of the store removes or reorders messages or changes
    anything of a message but its text: the ids, senders, parentIds,
    timestamps and isCode flags of the sequence before a run of calls are
    an initial segment of those after it. *)
Theorem calls_append_only (cs : list Call) (st : MessageState) :
  map header (messages st) `prefix_of` map header (messages (calls cs st)).
Proof.
  apply (calls_related
           (fun st st' => map header (messages st)
                          `prefix_of` map header (messages st'))).
  - done.
  - intros st1 st2 st3 H12 H23. by etrans.
  - intros env md st0. simpl. rewrite map_app. by apply prefix_app_r.
  - done.
  - done.
  - done.
  - done.
  - intros env um st0. rewrite sendToGeminiStream_messages, retext_headers.
    rewrite map_app. by apply prefix_app_r.
Qed.

(** X9: a run of calls that starts without a streaming target ends without
    one. *)
Theorem calls_leave_no_streaming_target (cs : list Call) (st : MessageState) :
  currentStreamingMessage st = None ->
  currentStreamingMessage (calls cs st) = None.
Proof.
  apply (calls_related
           (fun st st' => currentStreamingMessage st = None ->
                          currentStreamingMessage st' = None)); try done.
  all: try (intros st1 st2 st3 H12 H23 H; by apply H23, H12).
  all: intros env um st0 _; by rewrite sendToGeminiStream_state.
Qed.

(** The theorem at a session from the initial state. *)
Lemma calls_leave_no_streaming_target_witness :
  currentStreamingMessage (calls sample_session initialState) = None.
Proof.
  apply (calls_leave_no_streaming_target sample_session initialState).
  reflexivity.
Defined.

(** X10: when the tracker is null or the id of a message of the sequence,
    it is so after any run of calls; the parentId that a following
    [sendToGeminiStream] gives its message is then null or the id of a
    message that precedes it. *)
Theorem calls_keep_tracker_valid (cs : list Call) (st : MessageState) :
  trackerValid st ->
  trackerValid (calls cs st) /\
  forall env userMessage m p,
    messages (fst (sendToGeminiStream env userMessage (calls cs st)))
      !! length (messages (calls cs st)) = Some m ->
    parentId m = Some p ->
    p ∈ ids (calls cs st).
Proof.
  intros Hv.
  assert (trackerValid (calls cs st)) as Hv'.
  { revert Hv.
    apply (calls_related (fun st st' => trackerValid st -> trackerValid st'));
      try done.
    all: try (intros st1 st2 st3 H12 H23 H; by apply H23, H12).
    - intros env md st0 H k. unfold ids. simpl. rewrite map_app.
      destruct (default user (p_sender md)).
      + intros Hk. apply elem_of_app. left. by apply H.
      + intros [= <-]. apply elem_of_app. right. apply list_elem_of_here.
    - intros env um st0 _ k. unfold ids.
      rewrite sendToGeminiStream_state. simpl.
      rewrite retext_ids, map_app. intros [= <-].
      apply elem_of_app. right. apply list_elem_of_here. }
  split; [exact Hv'|].
  intros env um m p Hm Hp.
  rewrite sendToGeminiStream_new_message in Hm. injection Hm as <-.
  simpl in Hp. by apply Hv'.
Qed.

(** The theorem at a session from the initial state. *)
Lemma calls_keep_tracker_valid_witness :
  trackerValid (calls sample_session initialState) /\
  latestAIMessageId (calls sample_session initialState)
    = Some (js "1730000000001").
Proof.
  split; [|reflexivity].
  apply (calls_keep_tracker_valid sample_session initialState).
  intros k H. discriminate H.
Defined.

(** X11: after a turn on a non-blank text, and whether the stream
    completed or threw, [isLoading] is false and there is no streaming
    target, whatever they were before the turn. *)
Theorem turn_clears_loading
    (env : TurnEnv) (parent t : jsstring) (st : MessageState) :
  ~ blank t ->
  isLoading (handleAIResponse env t st) = false /\
  currentStreamingMessage (handleAIResponse env t st) = None /\
  isLoading (replyToMessage env parent t st) = false /\
  currentStreamingMessage (replyToMessage env parent t st) = None /\
  isLoading (sendMessage env (setInput t st)) = false /\
  currentStreamingMessage (sendMessage env (setInput t st)) = None.
Proof.
  intros Hnb.
  rewrite sendMessage_unfold. cbn [setInput input].
  destruct (negb (truthy (trim t))) eqn:E; [by apply blank_falsy in E|].
  rewrite !handleAIResponse_nonblank, replyToMessage_nonblank by done.
  by rewrite !sendToGeminiStream_state.
Qed.

(** The theorem at a turn whose stream throws, from a state that is
    loading. *)
Lemma turn_clears_loading_witness :
  isLoading
    (handleAIResponse
       {| user_env := sample_add "u9";
          stream_env := sample_stream [js "par"] Throws;
          fallback_env := sample_add "f9" |}
       (js "hello") (setIsLoading true after_first_turn)) = false.
Proof.
  refine (proj1 (turn_clears_loading _ (js "1001") (js "hello") _ _)).
  intros H. apply blank_falsy in H. vm_compute in H. discriminate H.
Defined.

(** ** What the cleanup transform removes *)

Lemma strip_prefix_Some d s r : strip_prefix d s = Some r -> s = d ++ r.
Proof.
  revert s. induction d as [|a d IH]; intros [|b s]; simpl; try congruence.
  destruct (N.eqb_spec a b) as [->|]; [|done].
  intros H. by rewrite (IH _ H).
Qed.

Lemma lazy_group_Some d s g n :
  lazy_group d s = Some (g, n) ->
  exists rest, s = g ++ d ++ rest /\ n = (length g + length d)%nat.
Proof.
  revert g n. induction s as [|c s IH]; intros g n; cbn [lazy_group].
  - destruct (strip_prefix d []) as [r|] eqn:E; [|done].
    intros [= <- <-]. exists r. split; [|done].
    simpl. by apply strip_prefix_Some.
  - destruct (strip_prefix d (c :: s)) as [r|] eqn:E.
    + intros [= <- <-]. exists r. split; [|done].
      simpl. by apply strip_prefix_Some.
    + destruct (is_line_terminator c); [done|].
      destruct (lazy_group d s) as [[g' n']|] eqn:E'; [|done].
      intros [= <- <-]. destruct (IH _ _ eq_refl) as (rest & -> & ->).
      exists rest. split; [done|]. simpl. lia.
Qed.

Lemma match_at_Some d s g n :
  match_at d s = Some (g, n) ->
  exists rest,
    s = d ++ g ++ d ++ rest /\ n = (length d + (length g + length d))%nat.
Proof.
  unfold match_at. destruct (strip_prefix d s) as [r|] eqn:E; [|done].
  destruct (lazy_group d r) as [[g' n']|] eqn:E'; [|done].
  intros [= <- <-]. apply strip_prefix_Some in E as ->.
  apply lazy_group_Some in E' as (rest & -> & ->). by exists rest.
Qed.

Lemma replace_group_cons d c s' :
  replace_group d (c :: s')
  = match match_at d (c :: s') with
    | Some (g, n) => g ++ replace_group d (drop (pred n) s')
    | None => c :: replace_group d s'
    end.
Proof.
  simp replace_group. by destruct (match_at d (c :: s')) as [[g n]|].
Qed.

(** A match of a non-empty delimiter splits the string into the delimiter,
    the group, the delimiter and the rest, where the scan resumes. *)
Lemma match_at_resume a p c s' g n :
  match_at (a :: p) (c :: s') = Some (g, n) ->
  c :: s' = (a :: p) ++ g ++ (a :: p) ++ drop (pred n) s' /\
  (length (drop (pred n) s') < length (c :: s'))%nat.
Proof.
  intros H. destruct (match_at_Some _ _ _ _ H) as (rest & E & ->).
  assert (drop (pred (length (a :: p) + (length g + length (a :: p)))) s'
          = rest) as ->.
  { cbn [app] in E. injection E as _ ->. simpl.
    replace (p ++ g ++ a :: p ++ rest) with ((p ++ g ++ a :: p) ++ rest)
      by (by rewrite <- !app_assoc).
    apply drop_app_length'. rewrite !length_app. simpl. lia. }
  split; [done|]. rewrite E, !length_app. simpl. lia.
Qed.

Lemma replace_group_sublist a p s :
  replace_group (a :: p) s `sublist_of` s.
Proof.
  remember (length s) as k eqn:Hk. revert s Hk.
  induction k as [k IH] using lt_wf_ind. intros [|c s'] Hk.
  - by simp replace_group.
  - rewrite replace_group_cons.
    destruct (match_at (a :: p) (c :: s')) as [[g n]|] eqn:E.
    + apply match_at_resume in E as [E Hlt]. rewrite E.
      apply sublist_inserts_l, sublist_app; [done|].
      apply sublist_inserts_l. eapply IH; [|done]. lia.
    + apply sublist_skip. eapply IH; [|done]. simpl in Hk. lia.
Qed.

Lemma replace_group_keeps_others a p s :
  Forall (fun c => c = a) p ->
  filter (fun c => c <> a) (replace_group (a :: p) s)
  = filter (fun c => c <> a) s.
Proof.
  intros Hp.
  assert (filter (fun c => c <> a) (a :: p) = []) as Hd.
  { rewrite filter_cons_False by (intros ?; done).
    induction Hp as [|c p -> _ IHp]; [done|].
    by rewrite filter_cons_False by (intros ?; done). }
  remember (length s) as k eqn:Hk. revert s Hk.
  induction k as [k IH] using lt_wf_ind. intros [|c s'] Hk.
  - by simp replace_group.
  - rewrite replace_group_cons.
    destruct (match_at (a :: p) (c :: s')) as [[g n]|] eqn:E.
    + apply match_at_resume in E as [E Hlt]. rewrite E.
      rewrite !list.filter_app, Hd. simpl. f_equal. eapply IH; [|done]. lia.
    + rewrite !filter_cons. case_decide; [f_equal|];
        (eapply IH; [|done]; simpl in Hk; lia).
Qed.

(** X12: the cleanup transform only deletes asterisks: its result is the
    text with some code units left out, in the same order, and every code
    unit that is not an asterisk is kept. *)
Theorem beautifyPlainText_only_deletes_asterisks (s : jsstring) :
  beautifyPlainText s `sublist_of` s /\
  filter (fun c => c <> asterisk) (beautifyPlainText s)
    = filter (fun c => c <> asterisk) s /\
  (length (beautifyPlainText s) <= length s)%nat.
Proof.
  assert (beautifyPlainText s `sublist_of` s) as Hsub.
  { unfold beautifyPlainText. etrans; apply replace_group_sublist. }
  split; [exact Hsub|]. split; [|by apply sublist_length].
  unfold beautifyPlainText.
  rewrite replace_group_keeps_others by done.
  apply replace_group_keeps_others. by repeat constructor.
Qed.

Lemma lazy_group_line_break a p body r :
  a ∉ body ->
  Exists (fun c => is_line_terminator c = true) body ->
  lazy_group (a :: p) (body ++ r) = None.
Proof.
  intros Ha Hlt. induction Hlt as [c body Hc|c body Hlt IH];
    apply not_elem_of_cons in Ha as [Hac Ha]; cbn [app lazy_group];
    rewrite strip_prefix_head_ne by done.
  - by rewrite Hc.
  - destruct (is_line_terminator c); [done|]. by rewrite IH.
Qed.

Lemma replace_group_tail a p body :
  a ∉ body -> replace_group (a :: p) (body ++ [a]) = body ++ [a].
Proof.
  induction body as [|c body IH]; intros H; cbn [app];
    rewrite replace_group_cons.
  - assert (match_at (a :: p) [a] = None) as ->.
    { unfold match_at. cbn [strip_prefix]. rewrite N.eqb_refl.
      destruct p as [|b p]; [|done]. cbn [strip_prefix lazy_group].
      done. }
    by simp replace_group.
  - apply not_elem_of_cons in H as [Hac H].
    rewrite match_at_head_ne by done. by rewrite IH.
Qed.

Lemma replace_single_double_tail a body :
  a ∉ body -> replace_group [a] (body ++ [a; a]) = body.
Proof.
  induction body as [|c body IH]; intros H; cbn [app];
    rewrite replace_group_cons.
  - assert (match_at [a] [a; a] = Some ([], 2%nat)) as ->.
    { unfold match_at. cbn [strip_prefix]. rewrite N.eqb_refl.
      cbn [lazy_group strip_prefix]. by rewrite N.eqb_refl. }
    simpl. by simp replace_group.
  - apply not_elem_of_cons in H as [Hac H].
    rewrite match_at_head_ne by done. by rewrite IH.
Qed.

Lemma replace_double_double_tail a body :
  a ∉ body -> replace_group [a; a] (body ++ [a; a]) = body ++ [a; a].
Proof.
  induction body as [|c body IH]; intros H; cbn [app];
    rewrite replace_group_cons.
  - assert (match_at [a; a] [a; a] = None) as ->.
    { unfold match_at. cbn [strip_prefix]. by rewrite !N.eqb_refl. }
    f_equal. apply (replace_group_tail a [a] []), not_elem_of_nil.
  - apply not_elem_of_cons in H as [Hac H].
    rewrite match_at_head_ne by done. by rewrite IH.
Qed.

(** With a line break in the body, the first expression finds no match. *)
Lemma replace_double_line_break a body :
  a ∉ body ->
  Exists (fun c => is_line_terminator c = true) body ->
  replace_group [a; a] ([a; a] ++ body ++ [a; a])
  = [a; a] ++ body ++ [a; a].
Proof.
  intros Ha Hlt. cbn [app]. rewrite replace_group_cons.
  assert (match_at [a; a] (a :: a :: body ++ [a; a]) = None) as ->.
  { unfold match_at. cbn [strip_prefix]. rewrite !N.eqb_refl.
    by rewrite lazy_group_line_break. }
  f_equal. rewrite replace_group_cons.
  assert (match_at [a; a] (a :: body ++ [a; a]) = None) as ->.
  { unfold match_at. cbn [strip_prefix]. rewrite N.eqb_refl.
    destruct Hlt as [c body Hc|c body Hlt];
      apply not_elem_of_cons in Ha as [Hac Ha]; cbn [app];
      by destruct (N.eqb_spec a c). }
  f_equal. by apply replace_double_double_tail.
Qed.

(** X13: a pair of double asterisks around text without asterisks is
    removed also when the text holds line breaks (then by the second
    expression, which takes each double asterisk for an empty emphasis);
    a pair of single asterisks around such text is removed only when the
    text holds no line break, and is kept otherwise. *)
Theorem beautifyPlainText_line_breaks (body : jsstring) :
  asterisk ∉ body ->
  beautifyPlainText ([asterisk; asterisk] ++ body ++ [asterisk; asterisk])
    = body /\
  (Exists (fun c => is_line_terminator c = true) body ->
   beautifyPlainText ([asterisk] ++ body ++ [asterisk])
     = [asterisk] ++ body ++ [asterisk]).
Proof.
  intros Ha. split.
  - destruct (decide (Exists (fun c => is_line_terminator c = true) body))
      as [Hlt|Hlt].
    + unfold beautifyPlainText.
      rewrite replace_double_line_break by done.
      cbn [app]. rewrite replace_group_cons.
      assert (match_at [asterisk]
                (asterisk :: asterisk :: body ++ [asterisk; asterisk])
              = Some ([], 2%nat)) as ->.
      { unfold match_at. cbn [strip_prefix]. rewrite N.eqb_refl.
        cbn [lazy_group strip_prefix]. by rewrite N.eqb_refl. }
      simpl. by apply replace_single_double_tail.
    + apply beautify_double; [done|].
      apply Forall_forall. intros c Hc.
      destruct (is_line_terminator c) eqn:E; [|done].
      exfalso. apply Hlt, Exists_exists. by exists c.
  - intros Hlt. unfold beautifyPlainText.
    rewrite replace_double_single by done.
    cbn [app]. rewrite replace_group_cons.
    assert (match_at [asterisk] (asterisk :: body ++ [asterisk]) = None) as ->.
    { unfold match_at. cbn [strip_prefix]. rewrite N.eqb_refl.
      by rewrite lazy_group_line_break. }
    f_equal. by apply replace_group_tail.
Qed.

(** The theorem at a body of two lines. *)
Lemma beautifyPlainText_line_breaks_witness :
  beautifyPlainText ([asterisk; asterisk] ++ [97; 10; 98] ++ [asterisk; asterisk])
    = [97; 10; 98] /\
  beautifyPlainText ([asterisk] ++ [97; 10; 98] ++ [asterisk])
    = [asterisk] ++ [97; 10; 98] ++ [asterisk].
Proof.
  assert (asterisk ∉ [97; 10; 98]) as Ha.
  { apply (bool_decide_unpack _). vm_compute. exact I. }
  destruct (beautifyPlainText_line_breaks [97; 10; 98] Ha) as [H1 H2].
  split; [exact H1|]. apply H2.
  apply Exists_cons_tl, Exists_cons_hd. reflexivity.
Defined.

(** ** The tree builder on every input *)

Lemma initNodes_last l k n :
  initNodes l !! k = Some n ->
  exists l1 l2,
    l = l1 ++ message n :: l2 /\ id (message n) = k /\ k ∉ map id l2.
Proof.
  revert n. induction l as [|x l IH] using rev_ind; intros n.
  - unfold initNodes; simpl. by rewrite lookup_empty.
  - rewrite initNodes_snoc, lookup_insert_Some.
    intros [[<- <-]|[Hne H]].
    + exists l, []. simpl. split; [done|]. split; [done|apply not_elem_of_nil].
    + destruct (IH _ H) as (l1 & l2 & -> & Hid & Hnot).
      exists l1, (l2 ++ [x]). split; [by rewrite <- app_assoc|].
      split; [done|]. rewrite map_app, not_elem_of_app. split; [done|].
      simpl. by intros ?%list_elem_of_singleton.
Qed.

(** X14: for every sequence, duplicates of ids included, the node map of
    the result has exactly the ids of the sequence as keys, and the node
    under a key carries the last message of the sequence with that id: an
    earlier message with the same id has no node. *)
Theorem buildmessageTree_last_message_wins
    (msgs : list Message) (k : jsstring) :
  (is_Some (snd (buildmessageTree msgs) !! k) <-> k ∈ map id msgs) /\
  (forall n,
     snd (buildmessageTree msgs) !! k = Some n ->
     exists before after,
       msgs = before ++ message n :: after /\
       id (message n) = k /\ k ∉ map id after).
Proof.
  rewrite buildmessageTree_node. split.
  - by rewrite fmap_is_Some, initNodes_is_Some.
  - intros n. destruct (initNodes msgs !! k) as [n0|] eqn:E; simpl; [|done].
    intros [= <-]. simpl. by apply initNodes_last.
Qed.

Lemma filter_none (Q : Message -> Prop) `{!forall m, Decision (Q m)}
    (l : list Message) :
  (forall m, m ∈ l -> ~ Q m) -> filter Q l = [].
Proof.
  induction l as [|x l IH]; intros Hall; [done|].
  rewrite filter_cons_False by (apply Hall, list_elem_of_here).
  apply IH. intros m Hm. by apply Hall, list_elem_of_further.
Qed.

Lemma count_map_filter (Q : Message -> Prop) `{!forall m, Decision (Q m)}
    (k : jsstring) (l : list Message) :
  count k (map id (filter Q l))
  = length (filter (fun m => id m = k /\ Q m) l).
Proof.
  induction l as [|x l IH]; [done|].
  rewrite (filter_cons Q), (filter_cons (fun m => id m = k /\ Q m)).
  destruct (decide (Q x)) as [HQ|HQ]; simpl.
  - destruct (decide (id x = k)) as [E|E].
    + rewrite decide_True by done. simpl. by rewrite IH.
    + rewrite decide_False by (by intros [? _]). by rewrite IH.
  - rewrite decide_False by (by intros [_ ?]). by rewrite IH.
Qed.

(** X15: for every sequence, duplicates of ids included, the root list
    holds the ids of the messages without a resolvable parent and the
    replies of the node under a key hold the ids of the messages whose
    parentId is that key, each list in the order of the sequence; so a node
    occurs in a list once for each message with its id that belongs to the
    list, and the references of all the lists are as many as the
    messages with that id. *)
Theorem buildmessageTree_lists (msgs : list Message) :
  fst (buildmessageTree msgs)
    = map id (filter (fun m => expectedPosition msgs m = AtRoot) msgs) /\
  (forall p n,
     snd (buildmessageTree msgs) !! p = Some n ->
     replies n
     = map id (filter (fun m => expectedPosition msgs m = InRepliesOf p) msgs)) /\
  (forall pos k,
     occurrences (buildmessageTree msgs) pos k
     = length (filter (fun m => id m = k /\ expectedPosition msgs m = pos)
                 msgs)).
Proof.
  split; [apply buildmessageTree_roots|].
  split; [apply buildmessageTree_replies|].
  intros [|p] k; unfold occurrences.
  - by rewrite buildmessageTree_roots, count_map_filter.
  - destruct (snd (buildmessageTree msgs) !! p) as [n|] eqn:En.
    + by rewrite (buildmessageTree_replies _ _ _ En), count_map_filter.
    + rewrite filter_none; [done|]. intros m _ [_ E].
      apply resolvedParent_Some_iff, resolvedParent_is_Some in E.
      rewrite buildmessageTree_node in En.
      destruct E as [n0 E]. by rewrite E in En.
Qed.

(** X16: when every message has a parentId that is the id of a message of
    the sequence, as in a cycle of parentIds or for a message that is its
    own parent, the root list is empty and the forest read from the result
    holds no message at all. *)
Theorem buildmessageTree_no_root (msgs : list Message) :
  (forall m, m ∈ msgs ->
     exists p, parentId m = Some p /\ truthy p = true /\ p ∈ map id msgs) ->
  fst (buildmessageTree msgs) = [] /\
  forall depth, readForest depth (buildmessageTree msgs) = [].
Proof.
  intros H.
  assert (fst (buildmessageTree msgs) = []) as Hroots.
  { rewrite buildmessageTree_roots, filter_none; [done|].
    intros m Hm. destruct (H m Hm) as (p & Hp & Ht & Hin).
    unfold expectedPosition. rewrite Hp, Ht. simpl.
    by rewrite bool_decide_eq_true_2. }
  split; [exact Hroots|]. intros depth. unfold readForest.
  by rewrite Hroots.
Qed.

(** The theorem at a cycle of two messages and a message that is its own
    parent. *)
Lemma buildmessageTree_no_root_witness :
  fst (buildmessageTree parent_cycle) = [] /\
  readForest 5 (buildmessageTree parent_cycle) = [].
Proof.
  destruct (buildmessageTree_no_root parent_cycle) as [H1 H2].
  - intros m Hm.
    repeat (apply elem_of_cons in Hm as [->|Hm]);
      [| | |by apply elem_of_nil in Hm];
      eexists; (split; [reflexivity|]); (split; [reflexivity|]);
      apply (bool_decide_unpack _); vm_compute; exact I.
  - split; [exact H1|apply H2].
Defined.

(** ** The tree of a conversation *)

Lemma retext_links cur f msgs : map link (retext cur f msgs) = map link msgs.
Proof.
  unfold retext. rewrite map_map. apply map_ext. intros m. by case_decide.
Qed.

Lemma conversation_links turns st :
  Forall (fun turn => ~ blank (snd turn)) turns ->
  map link (messages (conversation turns st))
  = map link (messages st) ++ concat (map turnLinks turns).
Proof.
  intros Hnb. revert st.
  induction Hnb as [|turn turns Hturn _ IH]; intros st.
  - simpl. by rewrite app_nil_r.
  - cbn [conversation fold_left]. fold (conversation turns). rewrite IH.
    rewrite handleAIResponse_messages by done.
    rewrite retext_links, map_app. cbn [map concat]. by rewrite <- app_assoc.
Qed.

Lemma filter_by_link pos msgs l :
  map id (filter (fun m => expectedPosition msgs m = pos) l)
  = map fst (filter (fun q => expectedOf (map id msgs) (snd q) = pos)
               (map link l)).
Proof.
  induction l as [|m l IH]; [done|]. cbn [map].
  rewrite (filter_cons (fun m => expectedPosition msgs m = pos)).
  rewrite (filter_cons (fun q => expectedOf (map id msgs) (snd q) = pos)).
  change (expectedOf (map id msgs) (snd (link m)))
    with (expectedPosition msgs m).
  destruct (decide (expectedPosition msgs m = pos)); simpl; by rewrite IH.
Qed.

Lemma turn_links_filtered known pos turns :
  (forall turn, turn ∈ turns ->
     truthy (userId turn) = true /\ userId turn ∈ known) ->
  map fst (filter (fun q => expectedOf known (snd q) = pos)
             (concat (map turnLinks turns)))
  = match pos with
    | AtRoot => map userId turns
    | InRepliesOf k => map aiId (filter (fun turn => userId turn = k) turns)
    end.
Proof.
  induction turns as [|turn turns IH]; intros H.
  - by destruct pos.
  - destruct (H turn (list_elem_of_here _ _)) as [Ht Hin].
    assert (expectedOf known (Some (userId turn)) = InRepliesOf (userId turn))
      as Hai.
    { unfold expectedOf. rewrite Ht. simpl. by rewrite bool_decide_eq_true_2. }
    specialize (IH (fun t Hmem => H t (list_elem_of_further _ _ _ Hmem))).
    cbn [map concat turnLinks app].
    rewrite !filter_cons. cbn [snd]. rewrite Hai. cbn [expectedOf].
    destruct pos as [|k].
    + rewrite decide_True by done. rewrite decide_False by done.
      cbn [map fst]. by rewrite IH.
    + rewrite decide_False by done. rewrite filter_cons.
      destruct (decide (userId turn = k)) as [E|E].
      * rewrite decide_True by congruence. cbn [map fst]. by rewrite IH.
      * rewrite decide_False by congruence. by rewrite IH.
Qed.

Lemma paired_ids_mem {A} (f g : A -> jsstring) (l : list A) x :
  x ∈ l ->
  f x ∈ concat (map (fun x => [f x; g x]) l) /\
  g x ∈ concat (map (fun x => [f x; g x]) l).
Proof.
  induction l as [|a l IH]; intros Hx; [by apply elem_of_nil in Hx|].
  cbn [map concat app]. apply elem_of_cons in Hx as [->|Hx].
  - split; [apply list_elem_of_here|].
    apply list_elem_of_further, list_elem_of_here.
  - destruct (IH Hx). split; by do 2 apply list_elem_of_further.
Qed.

Lemma paired_ids_distinct {A} (f g : A -> jsstring) (l : list A) :
  NoDup (concat (map (fun x => [f x; g x]) l)) ->
  NoDup (map f l) /\
  forall x y, x ∈ l -> y ∈ l -> f x <> g y.
Proof.
  induction l as [|a l IH]; intros Hnd.
  - split; [apply NoDup_nil_2|]. by intros x y ?%elem_of_nil.
  - cbn [map concat app] in Hnd.
    apply list.NoDup_cons in Hnd as [Hf Hnd].
    apply list.NoDup_cons in Hnd as [Hg Hnd].
    destruct (IH Hnd) as [IHf IHx].
    pose proof (paired_ids_mem f g l) as Hmem.
    split.
    + cbn [map]. apply list.NoDup_cons. split; [|done].
      intros Hin. apply list_elem_of_fmap in Hin as (x & E & Hx).
      apply Hf. rewrite E. apply list_elem_of_further. by apply Hmem.
    + intros x y Hx Hy E.
      apply elem_of_cons in Hx as [->|Hx];
        apply elem_of_cons in Hy as [->|Hy].
      * apply Hf. rewrite E. apply list_elem_of_here.
      * apply Hf. rewrite E. apply list_elem_of_further. by apply Hmem.
      * apply Hg. rewrite <- E. by apply Hmem.
      * by apply (IHx x y).
Qed.

Lemma filter_nothing {A} (Q : A -> Prop) `{!forall x, Decision (Q x)}
    (l : list A) :
  (forall x, x ∈ l -> ~ Q x) -> filter Q l = [].
Proof.
  induction l as [|a l IH]; intros Hall; [done|].
  rewrite filter_cons_False by (apply Hall, list_elem_of_here).
  apply IH. intros x Hx. by apply Hall, list_elem_of_further.
Qed.

Lemma filter_unique {A} (f : A -> jsstring) (l : list A) x :
  NoDup (map f l) -> x ∈ l -> filter (fun y => f y = f x) l = [x].
Proof.
  induction l as [|a l IH]; intros Hnd Hx; [by apply elem_of_nil in Hx|].
  cbn [map] in Hnd. apply list.NoDup_cons in Hnd as [Ha Hnd].
  assert (forall y, y ∈ l -> f y <> f a) as Hother.
  { intros y Hy E. apply Ha. rewrite <- E. by apply list_elem_of_fmap_2. }
  rewrite filter_cons. apply elem_of_cons in Hx as [->|Hx].
  - rewrite decide_True by done. f_equal.
    clear IH Hnd Ha. induction l as [|b l IHl]; [done|].
    rewrite filter_cons_False.
    + apply IHl. intros y Hy. by apply Hother, list_elem_of_further.
    + by apply Hother, list_elem_of_here.
  - rewrite decide_False; [by apply IH|].
    intros E. by apply (Hother x).
Qed.

(** X17: in a conversation led from the initial state by
    [handleAIResponse] turns on non-blank texts, with non-empty generated
    ids and no id used twice, the sequence alternates user and AI messages,
    the tree has the user messages as its roots, in the order of the turns,
    the only reply of a user message is the AI message of its turn, and an
    AI message has no reply. *)
Theorem conversation_tree (turns : list (TurnEnv * jsstring)) :
  Forall (fun turn => ~ blank (snd turn)) turns ->
  Forall (fun turn => truthy (userId turn) = true) turns ->
  NoDup (ids (conversation turns initialState)) ->
  ids (conversation turns initialState)
    = concat (map (fun turn => [userId turn; aiId turn]) turns) /\
  fst (buildmessageTree (messages (conversation turns initialState)))
    = map userId turns /\
  forall turn, turn ∈ turns ->
    (exists n,
       snd (buildmessageTree (messages (conversation turns initialState)))
         !! userId turn = Some n /\
       replies n = [aiId turn]) /\
    (exists n,
       snd (buildmessageTree (messages (conversation turns initialState)))
         !! aiId turn = Some n /\
       replies n = []).
Proof.
  intros Hnb Htruthy Hnd.
  set (msgs := messages (conversation turns initialState)) in *.
  assert (map link msgs = concat (map turnLinks turns)) as Hlinks.
  { subst msgs. by rewrite conversation_links. }
  assert (map id msgs
          = concat (map (fun turn => [userId turn; aiId turn]) turns)) as Hids.
  { transitivity (map fst (map link msgs)); [by rewrite map_map|].
    rewrite Hlinks. clear. induction turns as [|t ts IH]; [done|].
    cbn [map concat turnLinks app fst]. by rewrite IH. }
  unfold ids in *. fold msgs in Hnd |- *.
  assert (forall turn, turn ∈ turns ->
            userId turn ∈ map id msgs /\ aiId turn ∈ map id msgs) as Hmem.
  { intros turn Hturn. rewrite Hids. by apply paired_ids_mem. }
  assert (forall turn, turn ∈ turns ->
            truthy (userId turn) = true /\ userId turn ∈ map id msgs) as Hok.
  { intros turn Hturn. split; [|by apply Hmem].
    rewrite Forall_forall in Htruthy. by apply Htruthy, list_elem_of_In. }
  rewrite Hids in Hnd. apply paired_ids_distinct in Hnd as [Hnd Hcross].
  split; [exact Hids|]. split.
  - rewrite buildmessageTree_roots, filter_by_link, Hlinks.
    by rewrite (turn_links_filtered _ AtRoot).
  - intros turn Hturn. destruct (Hmem turn Hturn) as [Hu Ha]. split.
    + apply initNodes_is_Some in Hu as [n0 Hn0].
      eexists. split.
      * rewrite buildmessageTree_node, Hn0. reflexivity.
      * simpl. rewrite (initNodes_replies _ _ _ Hn0). simpl.
        rewrite filter_by_link, Hlinks.
        rewrite (turn_links_filtered _ (InRepliesOf (userId turn))) by done.
        by rewrite (filter_unique userId turns turn).
    + apply initNodes_is_Some in Ha as [n0 Hn0].
      eexists. split.
      * rewrite buildmessageTree_node, Hn0. reflexivity.
      * simpl. rewrite (initNodes_replies _ _ _ Hn0). simpl.
        rewrite filter_by_link, Hlinks.
        rewrite (turn_links_filtered _ (InRepliesOf (aiId turn))) by done.
        rewrite filter_nothing; [done|].
        intros t Ht E. by apply (Hcross t turn).
Qed.

(** The theorem at a conversation of three turns. *)
Lemma conversation_tree_witness :
  fst (buildmessageTree
         (messages (conversation sample_conversation initialState)))
    = [js "u1"; js "u2"; js "u3"] /\
  ids (conversation sample_conversation initialState)
    = [js "u1"; js "1001"; js "u2"; js "2001"; js "u3"; js "3001"].
Proof.
  destruct (conversation_tree sample_conversation) as (Hids & Hroots & _).
  - repeat (apply List.Forall_cons; [|]); [| | |apply List.Forall_nil];
      intros H; apply blank_falsy in H; vm_compute in H; discriminate H.
  - repeat (apply List.Forall_cons; [reflexivity|]). apply List.Forall_nil.
  - apply (bool_decide_unpack _). vm_compute. exact I.
  - split; [exact Hroots | exact Hids].
Defined.

(** X18: the result holds no dangling reference: every reference in the
    root list and in the replies of a node is the key of a node of the
    result. *)
Theorem buildmessageTree_references_resolve (msgs : list Message) :
  Forall (fun k => is_Some (snd (buildmessageTree msgs) !! k))
         (fst (buildmessageTree msgs)) /\
  forall p n,
    snd (buildmessageTree msgs) !! p = Some n ->
    Forall (fun k => is_Some (snd (buildmessageTree msgs) !! k)) (replies n).
Proof.
  assert (forall (Q : Message -> Prop) `{!forall m, Decision (Q m)},
            Forall (fun k => is_Some (snd (buildmessageTree msgs) !! k))
                   (map id (filter Q msgs))) as Hkeys.
  { intros Q ?. apply Forall_forall. intros k Hk.
    apply list_elem_of_In, list_elem_of_fmap in Hk as (m & -> & Hm).
    apply list_elem_of_filter in Hm as [_ Hm].
    rewrite buildmessageTree_node, fmap_is_Some.
    apply initNodes_is_Some. by apply list_elem_of_fmap_2. }
  split.
  - rewrite buildmessageTree_roots. apply Hkeys.
  - intros p n Hn. rewrite (buildmessageTree_replies _ _ _ Hn). apply Hkeys.
Qed.

(** X19: [addMessage] stores a fully given message as it is: when the id
    is not empty, the parentId is not the empty string and isCode is
    present, the record appended and returned is the given one and no id
    is generated. *)
Theorem addMessage_complete_record
    (env : AddEnv) (m : Message) (st : MessageState) :
  id m <> [] -> parentId m <> Some [] -> isCode m <> None ->
  addMessage env (completePartial m) st
  = (m, {| messages := messages st ++ [m];
           latestAIMessageId :=
             match sender m with
             | user => Some (id m)
             | ai => latestAIMessageId st
             end;
           input := input st; showModal := showModal st;
           isFocused := isFocused st; isLoading := isLoading st;
           currentStreamingMessage := currentStreamingMessage st |}).
Proof.
  intros Hid Hp Hc. destruct m as [i t sd p ts c]. simpl in *.
  unfold addMessage, completePartial; simpl.
  assert ((if truthy i then i else uuidv4 env) = i) as ->
    by (by destruct i).
  assert ((if truthy t then t else []) = t) as -> by (by destruct t).
  assert (match p with
          | Some p0 => if truthy p0 then Some p0 else None
          | None => None
          end = p) as ->.
  { destruct p as [[|? ?]|]; done. }
  destruct c as [c|]; [|done]. by destruct sd.
Qed.

(** The theorem at the second message of the sample thread. *)
Lemma addMessage_complete_record_witness :
  fst (addMessage (sample_add "unused")
         (completePartial
            {| id := js "m2"; text := js "hello"; sender := ai;
               parentId := Some (js "m1"); timestamp := 1001;
               isCode := Some true |})
         initialState)
  = {| id := js "m2"; text := js "hello"; sender := ai;
       parentId := Some (js "m1"); timestamp := 1001; isCode := Some true |}.
Proof.
  rewrite (addMessage_complete_record (sample_add "unused")
             {| id := js "m2"; text := js "hello"; sender := ai;
                parentId := Some (js "m1"); timestamp := 1001;
                isCode := Some true |}
             initialState); [reflexivity| | |]; discriminate.
Defined.
